(** * react-create-use-async: the cache engine of [createUseAsync.ts]

    A shallow embedding of [src/createUseAsync.ts] and of the error
    boundary of [src/CatchUseAsyncError.tsx].

    - Requests are JavaScript objects: association lists in the order
      [Object.entries] yields them.
    - [getKey] is the fingerprint: [omit], [Object.entries], [sort] with
      [localeCompare] (a parameter: it is the host's collation) and
      [JSON.stringify] on an array of [name, value] pairs, which prints
      the finite numbers with [Number::toString] (a parameter too).
    - The engine is a state machine.  The closure variables [cache] and
      [emitter] and the flags [aborted]/[started] of every task handed to
      the queue are fields of [State]; the public operations are state
      transformers.
    - The queue (p-queue) and [fetchData] belong to the environment: the
      queue calling the body of a task ([EStart]) and the promise of
      [fetchData] settling ([ESettle]) are events that may come at any
      time after the task was handed over, in any order among tasks.
      Listeners are opaque callbacks; what is recorded is each call of
      [emitter.emit]. *)

From Stdlib Require Import ZArith Ascii String DecimalString DecimalZ.
From stdpp Require Import base list strings sorting.

Local Open Scope string_scope.
Local Open Scope nat_scope.

(** ** Requests *)

(** A JavaScript number: the integer [z]; [-0]; a finite number that is
    no integer, which is [(2k+1) / 2^e] for exactly one [k] and [e]; or
    one of the three non-finite values. *)
Inductive JsNumber :=
| Fin (z : Z)
| NegZero
| Frac (k : Z) (e : positive)
| NaN
| PosInf
| NegInf.

Definition is_finite (n : JsNumber) : bool :=
  match n with
  | Fin _ | NegZero | Frac _ _ => true
  | NaN | PosInf | NegInf => false
  end.

(** A field value: [string | number | undefined]. *)
Inductive JsVal :=
| JStr (s : string)
| JNum (n : JsNumber)
| JUndefined.

(** An object [{ [key: string]: string | number | undefined }], own
    enumerable properties in enumeration order. *)
Abbreviation Request := (list (string * JsVal)).

(** What [JSON.stringify] keeps of a value inside an array: a string, a
    finite number up to the sign of zero, or [null]. *)
Inductive JsonVal :=
| JsonStr (s : string)
| JsonNum (n : JsNumber)
| JsonNull.

Definition toJson (v : JsVal) : JsonVal :=
  match v with
  | JStr s => JsonStr s
  | JNum NegZero => JsonNum (Fin 0)
  | JNum (Fin z) => JsonNum (Fin z)
  | JNum (Frac k e) => JsonNum (Frac k e)
  | JNum (NaN | PosInf | NegInf) => JsonNull
  | JUndefined => JsonNull
  end.

#[global] Instance JsNumber_eq_dec : EqDecision JsNumber.
Proof. solve_decision. Defined.
#[global] Instance JsVal_eq_dec : EqDecision JsVal.
Proof. solve_decision. Defined.

(** ** Fields and numbers *)

(** [omit(args, "priority")]. *)
Definition omit (name : string) (args : Request) : Request :=
  filter (λ kv, kv.1 ≠ name) args.

(** [args[name]]. *)
Fixpoint field (name : string) (rq : Request) : option JsVal :=
  match rq with
  | [] => None
  | (k, v) :: rq' => if decide (k = name) then Some v else field name rq'
  end.

(** A finite number is [numerator / 2^exponent]. *)
Definition numerator (n : JsNumber) : Z :=
  match n with
  | Fin z => z
  | Frac k _ => 2 * k + 1
  | _ => 0
  end.

Definition exponent (n : JsNumber) : Z :=
  match n with
  | Frac _ e => Z.pos e
  | _ => 0
  end.

(** [a < b] on numbers. *)
Definition num_ltb (a b : JsNumber) : bool :=
  match a, b with
  | NaN, _ | _, NaN => false
  | _, NegInf => false
  | NegInf, _ => true
  | PosInf, _ => false
  | _, PosInf => true
  | _, _ => (numerator a * 2 ^ exponent b <? numerator b * 2 ^ exponent a)%Z
  end.

(** [enum Status]. *)
Inductive Status :=
| Pending
| Resolved
| Rejected.

#[global] Instance Status_eq_dec : EqDecision Status.
Proof. solve_decision. Defined.

(** ** The host functions in the examples *)

(** An integer in decimal, as [Number::toString] prints the integers of
    fewer than 22 digits. *)
Definition string_of_Z (z : Z) : string :=
  NilZero.string_of_int (Z.to_int z).

(** The number texts of the examples.  The integers of fewer than 22
    digits and [-0], which is printed [0], are the only numbers in the
    examples, and are printed as the host prints them.  The other
    numbers get a text of their value that tells them apart, as is
    assumed of the host: the other integers in full, and
    [(2k+1) / 2^e], which is [(2k+1) 5^e / 10^e], in exponent form.
    [JSON.stringify] does not print the non-finite numbers with it. *)
Definition number_text (n : JsNumber) : string :=
  match n with
  | Fin z => string_of_Z z
  | Frac k e =>
      string_of_Z ((2 * k + 1) * 5 ^ Z.pos e) ++ "e-" ++ string_of_Z (Z.pos e)
  | NegZero => "0"
  | NaN => "NaN"
  | PosInf => "Infinity"
  | NegInf => "-Infinity"
  end.

(** A collation with a tie, as the host's has: U+0000 is ignored, so
    that ["a"] and ["a\u0000"] collate equal. *)
Fixpoint ignore_nul (s : string) : string :=
  match s with
  | EmptyString => EmptyString
  | String c s' =>
      if Ascii.eqb c "000"%char then ignore_nul s' else String c (ignore_nul s')
  end.

Definition collate (a b : string) : comparison :=
  String.compare (ignore_nul a) (ignore_nul b).

Section Engine.

(** ** JSON.stringify on an array of [name, value] pairs *)

Definition dquote : ascii := "034"%char.
Definition backslash : ascii := "092"%char.

Definition hex_digit (n : N) : ascii :=
  match n with
  | 0 => "0" | 1 => "1" | 2 => "2" | 3 => "3" | 4 => "4" | 5 => "5"
  | 6 => "6" | 7 => "7" | 8 => "8" | 9 => "9" | 10 => "a" | 11 => "b"
  | 12 => "c" | 13 => "d" | 14 => "e" | _ => "f"
  end%N%char.

(** QuoteJSONString, one code unit. *)
Definition quote_char (c : ascii) : string :=
  let n := N_of_ascii c in
  if (n =? 8)%N then String backslash "b"
  else if (n =? 9)%N then String backslash "t"
  else if (n =? 10)%N then String backslash "n"
  else if (n =? 12)%N then String backslash "f"
  else if (n =? 13)%N then String backslash "r"
  else if (n =? 34)%N then String backslash (String dquote "")
  else if (n =? 92)%N then String backslash (String backslash "")
  else if (n <? 32)%N then
    String backslash
      (String "u" (String "0" (String "0"
         (String (hex_digit (n / 16)) (String (hex_digit (n mod 16)) "")))))
  else String c "".

Fixpoint quote_body (s : string) : string :=
  match s with
  | "" => ""
  | String c s' => quote_char c ++ quote_body s'
  end.

Definition quote (s : string) : string :=
  String dquote (quote_body s ++ String dquote "").

(** [Number::toString], which [JSON.stringify] applies to the finite
    numbers. *)
Variable numberToString : JsNumber → string.

(** An array element: [undefined] and the non-finite numbers print as
    [null]. *)
Definition stringify_value (v : JsVal) : string :=
  match v with
  | JStr s => quote s
  | JNum n => if is_finite n then numberToString n else "null"
  | JUndefined => "null"
  end.

Definition stringify_entry (kv : string * JsVal) : string :=
  "[" ++ quote kv.1 ++ "," ++ stringify_value kv.2 ++ "]".

Fixpoint stringify_more (l : list (string * JsVal)) : string :=
  match l with
  | [] => "]"
  | kv :: l' => "," ++ stringify_entry kv ++ stringify_more l'
  end.

Definition JSON_stringify (l : list (string * JsVal)) : string :=
  match l with
  | [] => "[]"
  | kv :: l' => "[" ++ stringify_entry kv ++ stringify_more l'
  end.

(** ** getKey *)

(** [String.prototype.localeCompare], by the sign of its result. *)
Variable localeCompare : string → string → comparison.

(** [Array.prototype.sort] with the comparator
    [([a], [b]) => a.localeCompare(b)]: a stable sort. *)
Fixpoint sort_insert {V : Type} (kv : string * V) (l : list (string * V))
  : list (string * V) :=
  match l with
  | [] => [kv]
  | kv' :: l' =>
      match localeCompare kv.1 kv'.1 with
      | Gt => kv' :: sort_insert kv l'
      | _ => kv :: l
      end
  end.

Fixpoint sort {V : Type} (l : list (string * V)) : list (string * V) :=
  match l with
  | [] => []
  | kv :: l' => sort_insert kv (sort l')
  end.

Definition getKey (args : Request) : string :=
  JSON_stringify (sort (omit "priority" args)).

(** ** Cache entries and tasks *)

Context {Data Err : Type}.

(** What [fetchData(args)] settles with. *)
Inductive Outcome :=
| Fulfilled (data : Data)
| Failed (err : Err).

(** A thrown value: [new UseAsyncError(err)], or any other error. *)
Inductive JsError :=
| UseAsyncError (err : Err)
| OtherError (err : Err).

(** The [value] of an entry: the [AbortablePromise] of a task (its index
    in the task table), the data, or the error. *)
Inductive Value :=
| VPromise (t : nat)
| VData (data : Data)
| VError (e : JsError).

(** [CacheStatus]. *)
Record CacheStatus := {
  status : Status;
  value : Value;
  next : option nat;
  args : Request;
}.

(** One call of [queue.add]: the closure of the task body, with its
    variables [args] and [key], the flags [aborted] and [started], and
    whether the promise of [fetchData] has settled. *)
Record Task := {
  meta : Request;
  task_key : string;
  aborted : bool;
  started : bool;
  result : option Outcome;
}.

(** The closure of [createUseAsync]: [cache] (an object, in insertion
    order), the listeners of [emitter] (event name and callback), the
    tasks handed to [queue], the events emitted so far and the calls of
    [fetchData] so far (both oldest first). *)
Record State := {
  cache : list (string * CacheStatus);
  listeners : list (string * nat);
  tasks : list Task;
  emitted : list string;
  fetched : list Request;
}.

Definition init : State :=
  {| cache := []; listeners := []; tasks := []; emitted := []; fetched := [] |}.

Definition with_cache (c : list (string * CacheStatus)) (s : State) : State :=
  {| cache := c; listeners := listeners s; tasks := tasks s;
     emitted := emitted s; fetched := fetched s |}.

Definition with_tasks (ts : list Task) (s : State) : State :=
  {| cache := cache s; listeners := listeners s; tasks := ts;
     emitted := emitted s; fetched := fetched s |}.

Definition with_listeners (ls : list (string * nat)) (s : State) : State :=
  {| cache := cache s; listeners := ls; tasks := tasks s;
     emitted := emitted s; fetched := fetched s |}.

(** [emitter.emit(name)]. *)
Definition emit (name : string) (s : State) : State :=
  {| cache := cache s; listeners := listeners s; tasks := tasks s;
     emitted := emitted s ++ [name]; fetched := fetched s |}.

(** [fetchData(args)] is called. *)
Definition call_fetchData (rq : Request) (s : State) : State :=
  {| cache := cache s; listeners := listeners s; tasks := tasks s;
     emitted := emitted s; fetched := fetched s ++ [rq] |}.

(** [cache[key]]. *)
Fixpoint cache_get (key : string) (c : list (string * CacheStatus))
  : option CacheStatus :=
  match c with
  | [] => None
  | (k, e) :: c' => if decide (k = key) then Some e else cache_get key c'
  end.

(** [cache[key] = e]: an existing property keeps its place, a new one
    goes last. *)
Fixpoint cache_set (key : string) (e : CacheStatus)
  (c : list (string * CacheStatus)) : list (string * CacheStatus) :=
  match c with
  | [] => [(key, e)]
  | (k, e') :: c' =>
      if decide (k = key) then (key, e) :: c' else (k, e') :: cache_set key e c'
  end.

(** [delete cache[key]]. *)
Definition cache_delete (key : string) (c : list (string * CacheStatus))
  : list (string * CacheStatus) :=
  filter (λ ke, ke.1 ≠ key) c.

(** [emitter.listenerCount(name)]. *)
Definition listenerCount (name : string) (s : State) : nat :=
  length (filter (λ l, l.1 = name) (listeners s)).

(** [args.priority || 0].  The type [Args] makes [priority] a number or
    absent; [undefined], [NaN], [0] and [-0] are falsy.  (A string, which the
    type excludes, is read as [0].) *)
Definition priorityOr0 (rq : Request) : JsNumber :=
  match field "priority" rq with
  | Some (JNum (NaN | NegZero)) => Fin 0
  | Some (JNum n) => n
  | _ => Fin 0
  end.

(** ** startLoading *)

(** The [abort] method of the promise of task [t]:
    [if (!started) aborted = true; return aborted]. *)
Definition abort (t : nat) (s : State) : State * bool :=
  match tasks s !! t with
  | Some tk =>
      if started tk then (s, aborted tk)
      else
        (with_tasks
           (<[t := {| meta := meta tk; task_key := task_key tk; aborted := true;
                      started := started tk; result := result tk |}]> (tasks s)) s,
         true)
  | None => (s, false)
  end.

(** Lines 77-90: a request of higher priority tries to cancel the
    attempt of the entry.  (The type [Cache] makes the value of a Pending
    entry a promise; for any other value nothing is cancelled.) *)
Definition preempt (key : string) (rq : Request) (isRefetch : bool) (s : State)
  : State :=
  match cache_get key (cache s) with
  | Some existingCache =>
      if num_ltb (priorityOr0 (args existingCache)) (priorityOr0 rq) then
        let '(s1, cancelled) :=
          match (if isRefetch then next existingCache else None) with
          | Some n => abort n s
          | None => (s, false)
          end in
        if cancelled then
          with_cache
            (cache_set key
               {| status := status existingCache; value := value existingCache;
                  next := None; args := args existingCache |} (cache s1)) s1
        else
          match status existingCache, value existingCache with
          | Pending, VPromise t =>
              let '(s2, cancelled') := abort t s1 in
              if cancelled' then with_cache (cache_delete key (cache s2)) s2
              else s2
          | _, _ => s1
          end
      else s
  | None => s
  end.

(** The test of lines 93-96. *)
Definition submits (isRefetch : bool) (existingCache : option CacheStatus) : bool :=
  match existingCache with
  | None => true
  | Some e => isRefetch && negb (bool_decide (status e = Pending))
  end.

(** Lines 97-134: [queue.add] of a new task, then the entry. *)
Definition submit (key : string) (rq : Request) (isRefetch : bool)
  (existingCache : option CacheStatus) (s : State) : State :=
  let t := length (tasks s) in
  let s' :=
    with_tasks
      (tasks s ++ [{| meta := rq; task_key := key; aborted := false;
                      started := false; result := None |}]) s in
  match existingCache with
  | None =>
      with_cache
        (cache_set key
           {| args := rq; next := None; status := Pending; value := VPromise t |}
           (cache s')) s'
  | Some e =>
      if isRefetch then
        with_cache
          (cache_set key
             {| status := status e; value := value e; args := rq; next := Some t |}
             (cache s')) s'
      else s'
  end.

Definition startLoading (rq : Request) (isRefetch : bool) (s : State)
  : State * option CacheStatus :=
  let key := getKey rq in
  let s1 := preempt key rq isRefetch s in
  let existingCache := cache_get key (cache s1) in
  let s2 :=
    if submits isRefetch existingCache
    then submit key rq isRefetch existingCache s1
    else s1 in
  (s2, cache_get key (cache s2)).

(** ** The task body *)

(** The queue calls the body of task [t], which runs up to its [await]:
    [if (aborted) return; started = true; ... fetchData(args)].  The queue
    calls a body once. *)
Definition start_task (t : nat) (s : State) : State :=
  match tasks s !! t with
  | Some tk =>
      if aborted tk then s
      else if started tk then s
      else
        call_fetchData (meta tk)
          (with_tasks
             (<[t := {| meta := meta tk; task_key := task_key tk;
                        aborted := aborted tk; started := true;
                        result := result tk |}]> (tasks s)) s)
  | None => s
  end.

(** The value stored for an outcome (lines 108-109 and 112-113). *)
Definition settled_status (o : Outcome) : Status :=
  match o with Fulfilled _ => Resolved | Failed _ => Rejected end.

Definition settled_value (o : Outcome) : Value :=
  match o with
  | Fulfilled data => VData data
  | Failed err => VError (UseAsyncError err)
  end.

(** The promise of [fetchData] of task [t] settles with [o] and the body
    resumes (lines 106-117). *)
Definition settle_task (t : nat) (o : Outcome) (s : State) : State :=
  match tasks s !! t with
  | Some tk =>
      if started tk && bool_decide (result tk = None) then
        let s1 :=
          with_tasks
            (<[t := {| meta := meta tk; task_key := task_key tk;
                       aborted := aborted tk; started := started tk;
                       result := Some o |}]> (tasks s)) s in
        let key := task_key tk in
        match cache_get key (cache s1) with
        | None => s1
        | Some e =>
            emit "any"
              (emit key
                 (with_cache
                    (cache_set key
                       {| status := settled_status o; value := settled_value o;
                          next := None; args := args e |} (cache s1)) s1))
        end
      else s
  | None => s
  end.

(** ** The public operations *)

(** How [read] and [preload] complete. *)
Inductive Completion :=
| Return (v : Value)
| Throw (v : Value)
| AwaitThenRetry (v : Value)
| TypeError.

Definition read (rq : Request) (s : State) : State * Completion :=
  let '(s', state) := startLoading rq false s in
  (s', match state with
       | Some e =>
           match status e with
           | Pending => Throw (value e)
           | Resolved => Return (value e)
           | Rejected => Throw (value e)
           end
       | None => TypeError
       end).

(** One call of [preload]; after [await state.value] it calls itself
    again. *)
Definition preload (rq : Request) (s : State) : State * Completion :=
  let '(s', state) := startLoading rq false s in
  (s', match state with
       | Some e =>
           match status e with
           | Pending => AwaitThenRetry (value e)
           | Resolved => Return (value e)
           | Rejected => Throw (value e)
           end
       | None => TypeError
       end).

(** The test of lines 185-190. *)
Definition refreshes (key : string) (s : State) : bool :=
  bool_decide (0 < listenerCount key s) &&
  match cache_get key (cache s) with
  | Some e =>
      negb (bool_decide (status e = Pending)) && bool_decide (next e = None)
  | None => false
  end.

Definition invalidate (rq : Request) (s : State) : State :=
  let key := getKey rq in
  if refreshes key s then (startLoading rq true s).1
  else emit "any" (emit key (with_cache (cache_delete key (cache s)) s)).

(** [Object.values(cache).forEach(...)]. *)
Definition invalidateAll (onlyRejected : bool) (s : State) : State :=
  foldl
    (λ s' e,
       if negb onlyRejected || bool_decide (status e = Rejected)
       then invalidate (args e) s' else s')
    s (map snd (cache s)).

(** The first argument of [on] and [off]: [Args | "any"]. *)
Inductive Target :=
| Any
| Of (rq : Request).

Definition event_name (target : Target) : string :=
  match target with
  | Any => "any"
  | Of rq => getKey rq
  end.

Definition on (target : Target) (callback : nat) (s : State) : State :=
  with_listeners (listeners s ++ [(event_name target, callback)]) s.

Definition off (target : Target) (callback : nat) (s : State) : State :=
  with_listeners
    (filter (λ l, ¬ (l.1 = event_name target ∧ l.2 = callback)) (listeners s)) s.

(** ** Runs *)

(** What can happen to an engine: a call of a public operation, the
    queue starting a task, a fetch settling. *)
Inductive Event :=
| ERead (rq : Request)
| EPreload (rq : Request)
| EInvalidate (rq : Request)
| EInvalidateAll (onlyRejected : bool)
| EOn (target : Target) (callback : nat)
| EOff (target : Target) (callback : nat)
| EStart (t : nat)
| ESettle (t : nat) (o : Outcome).

Definition step (s : State) (ev : Event) : State :=
  match ev with
  | ERead rq => (read rq s).1
  | EPreload rq => (preload rq s).1
  | EInvalidate rq => invalidate rq s
  | EInvalidateAll onlyRejected => invalidateAll onlyRejected s
  | EOn target callback => on target callback s
  | EOff target callback => off target callback s
  | EStart t => start_task t s
  | ESettle t o => settle_task t o s
  end.

Definition run (evs : list Event) (s : State) : State := foldl step s evs.

(** ** The error boundary *)

(** What [getDerivedStateFromError] does: it returns the new state
    [{ error }] or throws. *)
Inductive Derived :=
| NewState (error : JsError)
| Rethrown (error : JsError).

(** [CatchUseAsyncError.getDerivedStateFromError]:
    [if (!(error instanceof UseAsyncError)) throw error; return { error }]. *)
Definition getDerivedStateFromError (error : JsError) : Derived :=
  match error with
  | UseAsyncError _ => NewState error
  | OtherError _ => Rethrown error
  end.

(** [clearError]: [this.setState({ error: null })]. *)
Definition clearError (error : option JsError) : option JsError := None.

(** What [render] returns: the fallback with the error, or the
    children. *)
Inductive Rendered :=
| Fallback (error : JsError)
| Children.

(** [render], from [state.error]. *)
Definition render (error : option JsError) : Rendered :=
  match error with
  | Some e => Fallback e
  | None => Children
  end.

(** ** Definitions for the statements *)

(** The condition of a background refresh, in the words of the
    specification: the fingerprint has subscribers, an entry exists, it is
    not Pending and it has no [next]. *)
Definition refresh_condition (key : string) (s : State) : Prop :=
  0 < listenerCount key s ∧
  ∃ e, cache_get key (cache s) = Some e ∧ status e ≠ Pending ∧ next e = None.

(** C8, in the words of the specification: once the cache holds no
    entry for the fingerprint of an attempt (its entry has been
    deleted), whatever happens next, the settlement of the attempt
    changes neither the cache nor what has been emitted. *)
Definition settlement_after_deletion_is_silent : Prop :=
  ∀ (evs1 evs2 : list Event) (t : nat) (tk : Task) (o : Outcome),
    let s1 := run evs1 init in
    tasks s1 !! t = Some tk →
    cache_get (task_key tk) (cache s1) = None →
    let s2 := run evs2 s1 in
    cache (settle_task t o s2) = cache s2 ∧
    emitted (settle_task t o s2) = emitted s2.

(** How a task can change: its request and key never do, and the flags
    only go up. *)
Definition task_evolves (tk tk' : Task) : Prop :=
  meta tk' = meta tk ∧ task_key tk' = task_key tk ∧
  (aborted tk = true → aborted tk' = true) ∧
  (started tk = true → started tk' = true) ∧
  (aborted tk = true → started tk = false → tk' = tk).

Definition tasks_evolve (s s' : State) : Prop :=
  ∀ t tk, tasks s !! t = Some tk →
    ∃ tk', tasks s' !! t = Some tk' ∧ task_evolves tk tk'.

(** An attempt in flight: neither cancelled nor settled. *)
Definition live (tk : Task) : Prop := aborted tk = false ∧ result tk = None.

(** Attempt [t] is the last one handed to the queue for [key]. *)
Definition latest (key : string) (t : nat) (ts : list Task) : Prop :=
  ∀ (t' : nat) tk', ts !! t' = Some tk' → task_key tk' = key → (t' ≤ t)%nat.

Definition task_ok (tk : Task) : Prop :=
  task_key tk = getKey (meta tk) ∧
  (aborted tk = true → started tk = false) ∧
  (result tk ≠ None → started tk = true).

(** The entry of [key] and the last attempt of [key]: the entry has the
    request of that attempt as [args]; a Pending entry has it as value
    and a refreshing entry has it as [next], in flight in both cases. *)
Definition entry_ok (ts : list Task) (key : string) (e : CacheStatus) : Prop :=
  ∃ t tk, ts !! t = Some tk ∧ task_key tk = key ∧ meta tk = args e ∧
    latest key t ts ∧
    (status e = Pending → value e = VPromise t ∧ next e = None ∧ live tk) ∧
    (∀ n, next e = Some n → n = t ∧ live tk).

Definition Inv (s : State) : Prop :=
  (∀ t tk, tasks s !! t = Some tk → task_ok tk) ∧
  (∀ key e, cache_get key (cache s) = Some e → entry_ok (tasks s) key e).

(** C7, in the words of the specification: the [args] of a settled
    entry is the request of a settled attempt whose outcome is the
    visible value or error. *)
Definition args_names_producer (s : State) : Prop :=
  ∀ key e, cache_get key (cache s) = Some e → status e ≠ Pending →
    ∃ t tk o, tasks s !! t = Some tk ∧ result tk = Some o ∧
      settled_value o = value e ∧ meta tk = args e.

Definition new_task (key : string) (rq : Request) : Task :=
  {| meta := rq; task_key := key; aborted := false; started := false;
     result := None |}.

Definition cancelled_task (tk : Task) : Task :=
  {| meta := meta tk; task_key := task_key tk; aborted := true;
     started := started tk; result := result tk |}.

(** A new attempt and its entry. *)
Definition fresh (key : string) (rq : Request) (e' : CacheStatus) (s : State) : State :=
  with_cache (cache_set key e' (cache s))
    (with_tasks (tasks s ++ [new_task key rq]) s).

(** A cancelled attempt and its deleted entry. *)
Definition cancel (key : string) (t : nat) (tk : Task) (s : State) : State :=
  with_cache (cache_delete key (cache s))
    (with_tasks (<[t := cancelled_task tk]> (tasks s)) s).

Definition pending_entry (rq : Request) (t : nat) : CacheStatus :=
  {| status := Pending; value := VPromise t; next := None; args := rq |}.

(** Every attempt of [key] in flight is the value of the Pending entry
    of [key] or the [next] of its entry. *)
Definition referenced (key : string) (s : State) : Prop :=
  ∀ t tk, tasks s !! t = Some tk → task_key tk = key → live tk →
    ∃ e, cache_get key (cache s) = Some e ∧
      ((status e = Pending ∧ value e = VPromise t) ∨ next e = Some t).

Definition no_live (key : string) (s : State) : Prop :=
  ∀ t tk, tasks s !! t = Some tk → task_key tk = key → ¬ live tk.

(** An [invalidate] that does not delete the entry of [key] while an
    attempt of [key] is in flight: it is for another fingerprint, it
    refreshes, or no attempt of [key] is in flight. *)
Definition quiet_invalidate (key : string) (rq : Request) (s : State) : Prop :=
  getKey rq = key → refresh_condition key s ∨ no_live key s.

Fixpoint quiet_invalidates (key : string) (onlyRejected : bool)
  (l : list CacheStatus) (s : State) : Prop :=
  match l with
  | [] => True
  | e :: l' =>
      if negb onlyRejected || bool_decide (status e = Rejected)
      then quiet_invalidate key (args e) s ∧
           quiet_invalidates key onlyRejected l' (invalidate (args e) s)
      else quiet_invalidates key onlyRejected l' s
  end.

Definition quiet (key : string) (s : State) (ev : Event) : Prop :=
  match ev with
  | EInvalidate rq => quiet_invalidate key rq s
  | EInvalidateAll onlyRejected =>
      quiet_invalidates key onlyRejected (map snd (cache s)) s
  | _ => True
  end.

Fixpoint quiet_run (key : string) (evs : list Event) (s : State) : Prop :=
  match evs with
  | [] => True
  | ev :: evs' => quiet key s ev ∧ quiet_run key evs' (step s ev)
  end.

(** C6, in the words of the specification: the value of a Pending entry
    is an attempt of the fingerprint in flight, and the only one. *)
Definition pending_value_is_sole_attempt (s : State) : Prop :=
  ∀ key e, cache_get key (cache s) = Some e → status e = Pending →
    ∃ t tk, value e = VPromise t ∧ tasks s !! t = Some tk ∧
      task_key tk = key ∧ live tk ∧
      ∀ t' tk', tasks s !! t' = Some tk' → task_key tk' = key → live tk' → t' = t.

(** The calls of [fetchData] made so far with a request of [key]. *)
Definition fetch_calls (key : string) (s : State) : nat :=
  length (filter (λ rq, getKey rq = key) (fetched s)).

(** The attempts of [key] whose body has started. *)
Definition started_count (key : string) (s : State) : nat :=
  length (filter (λ tk, task_key tk = key ∧ started tk = true) (tasks s)).

(** Each started attempt called [fetchData] once, and nothing else did. *)
Definition sync (key : string) (s : State) : Prop :=
  fetch_calls key s = started_count key s.

(** The window of C1 for [key]: anything may be read or preloaded, the
    queue starts tasks, listeners come and go, other fingerprints are
    invalidated and their attempts settle; no attempt of [key] settles
    and [key] is not invalidated. *)
Definition dedup_event (key : string) (s : State) (ev : Event) : Prop :=
  match ev with
  | ERead _ | EPreload _ | EStart _ | EOn _ _ | EOff _ _ => True
  | EInvalidate rq => getKey rq ≠ key
  | EInvalidateAll _ => False
  | ESettle t _ => ∀ tk, tasks s !! t = Some tk → task_key tk ≠ key
  end.

Fixpoint dedup_window (key : string) (evs : list Event) (s : State) : Prop :=
  match evs with
  | [] => True
  | ev :: evs' => dedup_event key s ev ∧ dedup_window key evs' (step s ev)
  end.

(** The refresh window of [key], as the specification has it: from the
    [invalidate] that submitted the refresh, attempt [t], until that
    attempt settles.  Any other attempt may settle in it. *)
Definition refresh_event (key : string) (t : nat) (s : State) (ev : Event)
  : Prop :=
  match ev with
  | ESettle t' _ => t' ≠ t
  | _ => dedup_event key s ev
  end.

Fixpoint refresh_window (key : string) (t : nat) (evs : list Event)
    (s : State) : Prop :=
  match evs with
  | [] => True
  | ev :: evs' => refresh_event key t s ev ∧ refresh_window key t evs' (step s ev)
  end.

(** C3, in the words of the specification: after [invalidate] of a
    Resolved entry with a subscriber and no [next], [read] returns the
    value from before the refresh all along the refresh window. *)
Definition stale_value_is_served : Prop :=
  ∀ (evs window : list Event) (rq : Request) (e : CacheStatus),
    let s := run evs init in
    let key := getKey rq in
    cache_get key (cache s) = Some e →
    status e = Resolved → next e = None →
    0 < listenerCount key s →
    refresh_window key (length (tasks s)) window (invalidate rq s) →
    (read rq (run window (invalidate rq s))).2 = Return (value e).

(** A request of [key] is read or preloaded. *)
Definition reads (key : string) (ev : Event) : Prop :=
  match ev with
  | ERead rq | EPreload rq => getKey rq = key
  | _ => False
  end.

Definition unsettled (key : string) (s : State) : Prop :=
  ∀ t tk, tasks s !! t = Some tk → task_key tk = key → result tk = None.

Definition pending_only (key : string) (s : State) : Prop :=
  ∀ e, cache_get key (cache s) = Some e → status e = Pending.

(** What holds of [key] all along the window. *)
Definition window_inv (key : string) (s : State) : Prop :=
  Inv s ∧ referenced key s ∧ sync key s ∧ unsettled key s ∧ pending_only key s.

(** The inverse of [quote_char], at the head of a string. *)
Definition unhex_digit (c : ascii) : N :=
  let n := N_of_ascii c in
  if (n <? 58)%N then (n - 48)%N else (n - 87)%N.

Definition unquote_char (s : string) : option (ascii * string) :=
  match s with
  | String a r =>
      if Ascii.eqb a backslash then
        match r with
        | String b r' =>
            if Ascii.eqb b "b" then Some ("008"%char, r')
            else if Ascii.eqb b "t" then Some ("009"%char, r')
            else if Ascii.eqb b "n" then Some ("010"%char, r')
            else if Ascii.eqb b "f" then Some ("012"%char, r')
            else if Ascii.eqb b "r" then Some ("013"%char, r')
            else if Ascii.eqb b "u" then
              match r' with
              | String _ (String _ (String h (String l r''))) =>
                  Some (ascii_of_N (16 * unhex_digit h + unhex_digit l), r'')
              | _ => None
              end
            else Some (b, r')
        | "" => None
        end
      else Some (a, r)
  | "" => None
  end.

(** Decimal numbers are made of digits and a sign. *)
Definition is_num_char (c : ascii) : bool :=
  match c with
  | "0" | "1" | "2" | "3" | "4" | "5" | "6" | "7" | "8" | "9" | "-" => true
  | _ => false
  end%char.

(** A number text is made of digits, signs, a point and an exponent
    mark. *)
Definition is_number_char (c : ascii) : bool :=
  match c with
  | "0" | "1" | "2" | "3" | "4" | "5" | "6" | "7" | "8" | "9"
  | "-" | "+" | "." | "e" => true
  | _ => false
  end%char.

Fixpoint str_forall (f : ascii → bool) (s : string) : bool :=
  match s with
  | "" => true
  | String a s' => f a && str_forall f s'
  end.

(** A word without ["]"], closed by ["]"]. *)
Definition no_bracket (c : ascii) : bool := negb (Ascii.eqb c "]").

Definition stringify_json (j : JsonVal) : string :=
  match j with
  | JsonStr s => quote s
  | JsonNum n => numberToString n
  | JsonNull => "null"
  end.

(** The numbers of [JsonVal] are the finite ones other than [-0]. *)
Definition json_ok (j : JsonVal) : Prop :=
  match j with
  | JsonNum n => is_finite n = true ∧ toJson (JNum n) = JsonNum n
  | _ => True
  end.

(** A [name, value] pair as JSON sees it. *)
Definition json_entry (kv : string * JsVal) : string * JsonVal :=
  (kv.1, toJson kv.2).

(** The fields of a request that are not [priority], as JSON sees
    them. *)
Definition json_fields (rq : Request) : list (string * JsonVal) :=
  json_entry <$> omit "priority" rq.

(** C5, in the words of the specification: the fingerprint does not
    depend on the order in which the fields were inserted, and two
    requests that differ in a field that is not [priority] have
    different fingerprints. *)
Definition fingerprint_ignores_order : Prop :=
  ∀ r1 r2 : Request, NoDup r1.*1 → r1 ≡ₚ r2 → getKey r1 = getKey r2.

Definition fingerprints_separate : Prop :=
  ∀ r1 r2 : Request, NoDup r1.*1 → NoDup r2.*1 →
    ¬ (omit "priority" r1 ≡ₚ omit "priority" r2) → getKey r1 ≠ getKey r2.

(** No two fields of the request, [priority] apart, have names that
    collate equal. *)
Definition told_apart (rq : Request) : Prop :=
  ∀ a b, a ∈ (omit "priority" rq).*1 → b ∈ (omit "priority" rq).*1 →
    localeCompare a b = Eq → a = b.

Definition key_le {V : Type} (x y : string * V) : Prop :=
  localeCompare x.1 y.1 ≠ Gt.

(** The agreement of status and value that the type [Cache] asks for. *)
Definition entry_typed (e : CacheStatus) : Prop :=
  match status e, value e with
  | Pending, VPromise _ => True
  | Resolved, VData _ => True
  | Rejected, VError (UseAsyncError _) => True
  | _, _ => False
  end.

(** The entries the code stores: a Pending entry with a promise, a
    settled entry with the outcome, or the status and value of an entry
    of the cache. *)
Definition admissible (c : list (string * CacheStatus)) (e : CacheStatus) : Prop :=
  (∃ t, status e = Pending ∧ value e = VPromise t) ∨
  (∃ o, status e = settled_status o ∧ value e = settled_value o) ∨
  (∃ k x, cache_get k c = Some x ∧ status e = status x ∧ value e = value x).

(** The two events of a notification. *)
Definition notification (key : string) : list string := [key; "any"].

(** The events that are no notification point of the code: reading,
    preloading, subscribing, the start of a task body. *)
Definition silent (ev : Event) : Prop :=
  match ev with
  | ERead _ | EPreload _ | EOn _ _ | EOff _ _ | EStart _ => True
  | EInvalidate _ | EInvalidateAll _ | ESettle _ _ => False
  end.

(** How [read] and [preload] may complete when the cache is typed as
    [Cache] asks: with the data, with the promise of the attempt, or
    with an error that the error boundary keeps. *)
Definition completion_typed (c : Completion) : Prop :=
  match c with
  | Return (VData _) => True
  | Throw (VPromise _) => True
  | AwaitThenRetry (VPromise _) => True
  | Throw (VError e) =>
      getDerivedStateFromError e = NewState e ∧ render (Some e) = Fallback e
  | _ => False
  end.

(** ** Lemmas on the cache object *)

Lemma cache_get_set_eq key e c : cache_get key (cache_set key e c) = Some e.
Proof.
  induction c as [|[k e'] c IH]; simpl.
  - by rewrite decide_True.
  - destruct (decide (k = key)) as [->|Hne]; simpl.
    + by rewrite decide_True.
    + by rewrite decide_False.
Qed.

Lemma cache_get_set_ne key key' e c :
  key ≠ key' → cache_get key' (cache_set key e c) = cache_get key' c.
Proof.
  intros Hne. induction c as [|[k e'] c IH]; simpl.
  - by rewrite decide_False.
  - destruct (decide (k = key)) as [->|Hk]; simpl.
    + by rewrite !decide_False.
    + by rewrite IH.
Qed.

Lemma cache_get_delete_eq key c : cache_get key (cache_delete key c) = None.
Proof.
  unfold cache_delete. induction c as [|[k e] c IH]; [done|].
  rewrite filter_cons. simpl. destruct (decide (k ≠ key)) as [Hk|Hk]; simpl.
  - by rewrite decide_False.
  - done.
Qed.

Lemma cache_get_delete_ne key key' c :
  key ≠ key' → cache_get key' (cache_delete key c) = cache_get key' c.
Proof.
  intros Hne. unfold cache_delete. induction c as [|[k e] c IH]; [done|].
  rewrite filter_cons. simpl. destruct (decide (k ≠ key)) as [Hk|Hk]; simpl.
  - by rewrite IH.
  - apply dec_stable in Hk. subst k. by rewrite decide_False.
Qed.

Lemma cache_delete_absent key c :
  cache_get key c = None → cache_delete key c = c.
Proof.
  unfold cache_delete. induction c as [|[k e] c IH]; [done|].
  simpl. rewrite filter_cons. simpl. intros H.
  destruct (decide (k = key)) as [->|Hk]; [done|].
  rewrite decide_True by done. by rewrite IH.
Qed.

(** ** C10 *)

(** C10: [invalidate] of a request whose fingerprint has no entry leaves
    the cache as it is, and still emits once the fingerprint's event and
    once ["any"], nothing else; no task is handed to the queue. *)
Theorem invalidate_without_entry (rq : Request) (s : State) :
  cache_get (getKey rq) (cache s) = None →
  cache (invalidate rq s) = cache s ∧
  emitted (invalidate rq s) = (emitted s ++ [getKey rq; "any"])%list ∧
  tasks (invalidate rq s) = tasks s ∧
  fetched (invalidate rq s) = fetched s.
Proof.
  intros Hnone. unfold invalidate, refreshes. rewrite Hnone.
  rewrite andb_false_r. simpl.
  rewrite cache_delete_absent by done.
  by rewrite <- app_assoc.
Qed.

(** ** C4 *)

Lemma refreshes_spec key s : refreshes key s = true ↔ refresh_condition key s.
Proof.
  unfold refreshes, refresh_condition.
  rewrite andb_true_iff, bool_decide_eq_true.
  destruct (cache_get key (cache s)) as [e|].
  - rewrite andb_true_iff, negb_true_iff, bool_decide_eq_false, bool_decide_eq_true.
    split.
    + intros (? & ? & ?). eauto.
    + intros (? & e' & [= <-] & ? & ?). done.
  - split; [intros [_ ?]; done|]. intros (_ & e' & ? & _). done.
Qed.

(** On an entry that is settled and has no [next], no request cancels
    anything. *)
Lemma preempt_settled key rq isRefetch s e :
  cache_get key (cache s) = Some e → status e ≠ Pending → next e = None →
  preempt key rq isRefetch s = s.
Proof.
  intros He Hst Hnx. unfold preempt. rewrite He, Hnx.
  destruct (num_ltb _ _); [|done].
  destruct isRefetch; simpl; by destruct (status e), (value e).
Qed.

(** The two ways of [invalidate]. *)
Lemma invalidate_cases (rq : Request) (s : State) :
  let key := getKey rq in
  let s' := invalidate rq s in
  (refresh_condition key s ∧
    ∃ e, cache_get key (cache s) = Some e ∧
      tasks s' =
        (tasks s ++ [{| meta := rq; task_key := key; aborted := false;
                        started := false; result := None |}])%list ∧
      cache s' =
        cache_set key
          {| status := status e; value := value e;
             next := Some (length (tasks s)); args := rq |} (cache s) ∧
      emitted s' = emitted s)
   ∨
   (¬ refresh_condition key s ∧
    tasks s' = tasks s ∧
    cache s' = cache_delete key (cache s) ∧
    emitted s' = (emitted s ++ [key; "any"])%list).
Proof.
  intros key s'. subst s'. unfold invalidate. fold key.
  destruct (refreshes key s) eqn:Hr.
  - apply refreshes_spec in Hr as Hc.
    left. split; [done|]. destruct Hc as (Hl & e & He & Hst & Hnx).
    exists e. split; [done|]. unfold startLoading. fold key. simpl.
    rewrite (preempt_settled key rq true s e) by done.
    rewrite He. simpl. rewrite bool_decide_eq_false_2 by done. simpl.
    done.
  - assert (¬ refresh_condition key s) as Hc.
    { rewrite <- refreshes_spec. by rewrite Hr. }
    right. split; [done|]. simpl. by rewrite <- app_assoc.
Qed.

(** C4: [invalidate] starts a background refresh (one new task, the
    entry kept with its status and value, the task in [next], nothing
    emitted) exactly when the fingerprint has subscribers and its entry
    exists, is not Pending and has no [next]; in every other case it
    deletes the entry, hands nothing to the queue and emits the
    fingerprint's event and ["any"]; so without subscribers the entry is
    deleted and no fetch is scheduled. *)
Theorem invalidate_refresh_or_delete (rq : Request) (s : State) :
  let key := getKey rq in
  let s' := invalidate rq s in
  ((refresh_condition key s ∧
    ∃ e, cache_get key (cache s) = Some e ∧
      tasks s' =
        (tasks s ++ [{| meta := rq; task_key := key; aborted := false;
                        started := false; result := None |}])%list ∧
      cache s' =
        cache_set key
          {| status := status e; value := value e;
             next := Some (length (tasks s)); args := rq |} (cache s) ∧
      emitted s' = emitted s)
   ∨
   (¬ refresh_condition key s ∧
    tasks s' = tasks s ∧
    cache s' = cache_delete key (cache s) ∧
    emitted s' = (emitted s ++ [key; "any"])%list)) ∧
  (listenerCount key s = 0 →
   tasks s' = tasks s ∧ cache_get key (cache s') = None ∧
   fetched s' = fetched s).
Proof.
  intros key s'. split; [apply invalidate_cases|].
  intros Hz. destruct (invalidate_cases rq s) as [([Hl _] & _)|(_ & Hts & Hc & _)].
  - fold key in Hl. lia.
  - fold key s' in Hts, Hc. split; [done|]. rewrite Hc. split.
    + apply cache_get_delete_eq.
    + subst s'. unfold invalidate. fold key.
      destruct (refreshes key s) eqn:Hr; [|done].
      apply refreshes_spec in Hr as [Hl _]. lia.
Qed.

(** ** C9 *)

(** A request finds a settled entry of its fingerprint: nothing is
    cancelled and nothing is handed to the queue. *)
Lemma startLoading_settled rq s e :
  cache_get (getKey rq) (cache s) = Some e → status e ≠ Pending →
  startLoading rq false s = (s, Some e).
Proof.
  intros He Hst. unfold startLoading.
  assert (preempt (getKey rq) rq false s = s) as ->.
  { unfold preempt. rewrite He. destruct (num_ltb _ _); [|done].
    simpl. by destruct (status e), (value e). }
  rewrite He. simpl. by rewrite He.
Qed.

(** C9: when [fetchData] fails for a started attempt and the entry of its
    fingerprint is in the cache, the entry becomes Rejected with
    [new UseAsyncError(err)] as value; [read] and [preload] of a request
    of that fingerprint then throw that error and change nothing; the
    error boundary keeps an error of that kind and throws any other
    error as it is. *)
Theorem rejected_fetch_is_wrapped_and_rethrown
  (t : nat) (tk : Task) (err : Err) (e : CacheStatus) (s : State) :
  tasks s !! t = Some tk →
  started tk = true →
  result tk = None →
  cache_get (task_key tk) (cache s) = Some e →
  let s' := settle_task t (Failed err) s in
  cache_get (task_key tk) (cache s') =
    Some {| status := Rejected; value := VError (UseAsyncError err);
            next := None; args := args e |} ∧
  (∀ rq, getKey rq = task_key tk →
     read rq s' = (s', Throw (VError (UseAsyncError err))) ∧
     preload rq s' = (s', Throw (VError (UseAsyncError err)))) ∧
  getDerivedStateFromError (UseAsyncError err) = NewState (UseAsyncError err) ∧
  (∀ err', getDerivedStateFromError (OtherError err') = Rethrown (OtherError err')).
Proof.
  intros Ht Hst Hres He s'.
  assert (cache_get (task_key tk) (cache s') =
    Some {| status := Rejected; value := VError (UseAsyncError err);
            next := None; args := args e |}) as Hs'.
  { subst s'. unfold settle_task. rewrite Ht, Hst, Hres. simpl.
    rewrite He. simpl. apply cache_get_set_eq. }
  split; [done|]. split; [|done].
  intros rq Hk. rewrite <- Hk in Hs'.
  unfold read, preload. by rewrite (startLoading_settled rq s' _ Hs').
Qed.

(** ** C8 *)

(** C8, as the code has it: an attempt that settles while the cache
    holds no entry for its fingerprint changes neither the cache nor
    what has been emitted; only the task records its outcome. *)
Theorem settle_without_entry (t : nat) (tk : Task) (o : Outcome) (s : State) :
  tasks s !! t = Some tk →
  cache_get (task_key tk) (cache s) = None →
  cache (settle_task t o s) = cache s ∧
  emitted (settle_task t o s) = emitted s ∧
  listeners (settle_task t o s) = listeners s ∧
  fetched (settle_task t o s) = fetched s.
Proof.
  intros Ht Hnone. unfold settle_task. rewrite Ht.
  destruct (started tk && bool_decide (result tk = None)); [|done].
  simpl. by rewrite Hnone.
Qed.

(** ** Tasks over a run *)

Lemma task_evolves_refl tk : task_evolves tk tk.
Proof. unfold task_evolves. by split_and!. Qed.

Lemma tasks_evolve_refl s : tasks_evolve s s.
Proof. intros t tk H. eauto using task_evolves_refl. Qed.

Lemma tasks_evolve_trans s1 s2 s3 :
  tasks_evolve s1 s2 → tasks_evolve s2 s3 → tasks_evolve s1 s3.
Proof.
  intros H12 H23 t tk Ht.
  destruct (H12 t tk Ht) as (tk2 & Ht2 & E1).
  destruct (H23 t tk2 Ht2) as (tk3 & Ht3 & E2).
  exists tk3. split; [done|].
  destruct E1 as (? & ? & ? & ? & Hs1), E2 as (? & ? & ? & ? & Hs2).
  split_and!; try congruence; try tauto.
  intros Ha Hs. rewrite <- (Hs1 Ha Hs). apply Hs2; rewrite (Hs1 Ha Hs); done.
Qed.

Lemma tasks_evolve_same_tasks s s' : tasks s' = tasks s → tasks_evolve s s'.
Proof. intros E t tk H. rewrite E. eauto using task_evolves_refl. Qed.

Lemma abort_evolves t s : tasks_evolve s (abort t s).1.
Proof.
  intros t0 tk0 H0. unfold abort.
  destruct (tasks s !! t) as [tk|] eqn:Ht; [|eauto using task_evolves_refl].
  destruct (started tk) eqn:Hst; [eauto using task_evolves_refl|]. simpl.
  destruct (decide (t = t0)) as [->|Hne].
  - rewrite list_lookup_insert_eq by (by eapply lookup_lt_Some).
    simplify_eq. eexists. split; [done|].
    unfold task_evolves; split_and!; simpl; try done; try congruence.
    intros Ha _. destruct tk0; simpl in *; by subst.
  - rewrite list_lookup_insert_ne by done. eauto using task_evolves_refl.
Qed.

Lemma preempt_evolves key rq isRefetch s : tasks_evolve s (preempt key rq isRefetch s).
Proof.
  unfold preempt. destruct (cache_get key (cache s)) as [e|]; [|apply tasks_evolve_refl].
  destruct (num_ltb _ _); [|apply tasks_evolve_refl].
  destruct (if isRefetch then next e else None) as [n|].
  - pose proof (abort_evolves n s) as Hn. destruct (abort n s) as [s1 c1]. simpl in Hn.
    destruct c1.
    + eapply tasks_evolve_trans; [done|]. by apply tasks_evolve_same_tasks.
    + destruct (status e), (value e) as [t| |]; try done.
      pose proof (abort_evolves t s1) as Ht. destruct (abort t s1) as [s2 c2]. simpl in Ht.
      eapply tasks_evolve_trans; [done|]. eapply tasks_evolve_trans; [done|].
      destruct c2; by apply tasks_evolve_same_tasks.
  - destruct (status e), (value e) as [t| |]; try apply tasks_evolve_refl.
    pose proof (abort_evolves t s) as Ht. destruct (abort t s) as [s2 c2]. simpl in Ht.
    eapply tasks_evolve_trans; [done|].
    destruct c2; by apply tasks_evolve_same_tasks.
Qed.

Lemma submit_tasks key rq isRefetch ex s :
  tasks (submit key rq isRefetch ex s) =
    (tasks s ++ [{| meta := rq; task_key := key; aborted := false;
                    started := false; result := None |}])%list.
Proof. unfold submit. destruct ex; [destruct isRefetch|]; done. Qed.

Lemma submit_evolves key rq isRefetch ex s :
  tasks_evolve s (submit key rq isRefetch ex s).
Proof.
  intros t tk Ht. rewrite submit_tasks.
  exists tk. split; [|apply task_evolves_refl].
  by apply lookup_app_l_Some.
Qed.

Lemma startLoading_evolves rq isRefetch s :
  tasks_evolve s (startLoading rq isRefetch s).1.
Proof.
  unfold startLoading. simpl.
  eapply tasks_evolve_trans; [apply preempt_evolves|].
  destruct (submits _ _); [apply submit_evolves|apply tasks_evolve_refl].
Qed.

Lemma start_task_evolves t s : tasks_evolve s (start_task t s).
Proof.
  intros t0 tk0 H0. unfold start_task.
  destruct (tasks s !! t) as [tk|] eqn:Ht; [|eauto using task_evolves_refl].
  destruct (aborted tk) eqn:Hab; [eauto using task_evolves_refl|].
  destruct (started tk) eqn:Hst; [eauto using task_evolves_refl|]. simpl.
  destruct (decide (t = t0)) as [->|Hne].
  - rewrite list_lookup_insert_eq by (by eapply lookup_lt_Some).
    simplify_eq. eexists. split; [done|].
    unfold task_evolves; split_and!; simpl; try done; try congruence.
  - rewrite list_lookup_insert_ne by done. eauto using task_evolves_refl.
Qed.

Lemma settle_task_tasks t o s tk :
  tasks s !! t = Some tk → started tk = true → result tk = None →
  tasks (settle_task t o s) =
    <[t := {| meta := meta tk; task_key := task_key tk; aborted := aborted tk;
              started := started tk; result := Some o |}]> (tasks s).
Proof.
  intros Ht Hst Hres. unfold settle_task. rewrite Ht, Hst, Hres. simpl.
  by destruct (cache_get _ _).
Qed.

Lemma settle_task_noop t o s :
  (∀ tk, tasks s !! t = Some tk → started tk = true → result tk = None → False) →
  settle_task t o s = s.
Proof.
  intros H. unfold settle_task. destruct (tasks s !! t) as [tk|] eqn:Ht; [|done].
  destruct (started tk) eqn:Hst; [|done].
  destruct (result tk) eqn:Hres; [done|]. exfalso. eauto.
Qed.

Lemma settle_task_evolves t o s : tasks_evolve s (settle_task t o s).
Proof.
  intros t0 tk0 H0.
  destruct (tasks s !! t) as [tk|] eqn:Ht;
    [|rewrite settle_task_noop by (intros; simplify_eq; congruence); eauto using task_evolves_refl].
  destruct (started tk) eqn:Hst;
    [|rewrite settle_task_noop by (intros; simplify_eq; congruence); eauto using task_evolves_refl].
  destruct (result tk) eqn:Hres;
    [rewrite settle_task_noop by (intros; simplify_eq; congruence); eauto using task_evolves_refl|].
  rewrite (settle_task_tasks t o s tk) by done.
  destruct (decide (t = t0)) as [->|Hne].
  - rewrite list_lookup_insert_eq by (by eapply lookup_lt_Some).
    simplify_eq. eexists. split; [done|].
    unfold task_evolves; split_and!; simpl; try done. intros Ha Hs. congruence.
  - rewrite list_lookup_insert_ne by done. eauto using task_evolves_refl.
Qed.

Lemma invalidate_evolves rq s : tasks_evolve s (invalidate rq s).
Proof.
  unfold invalidate. destruct (refreshes _ _).
  - apply startLoading_evolves.
  - by apply tasks_evolve_same_tasks.
Qed.

Lemma invalidateAll_evolves onlyRejected s : tasks_evolve s (invalidateAll onlyRejected s).
Proof.
  unfold invalidateAll. generalize (map snd (cache s)). intros l.
  revert s. induction l as [|e l IH]; intros s; simpl; [apply tasks_evolve_refl|].
  eapply tasks_evolve_trans; [|apply IH].
  destruct (_ || _); [apply invalidate_evolves|apply tasks_evolve_refl].
Qed.

Lemma read_state rq s : (read rq s).1 = (startLoading rq false s).1.
Proof. unfold read. by destruct (startLoading rq false s). Qed.

Lemma preload_state rq s : (preload rq s).1 = (startLoading rq false s).1.
Proof. unfold preload. by destruct (startLoading rq false s). Qed.

Lemma step_evolves s ev : tasks_evolve s (step s ev).
Proof.
  destruct ev; cbn [step].
  - rewrite read_state. apply startLoading_evolves.
  - rewrite preload_state. apply startLoading_evolves.
  - apply invalidate_evolves.
  - apply invalidateAll_evolves.
  - by apply tasks_evolve_same_tasks.
  - by apply tasks_evolve_same_tasks.
  - apply start_task_evolves.
  - apply settle_task_evolves.
Qed.

Lemma run_evolves evs s : tasks_evolve s (run evs s).
Proof.
  revert s. induction evs as [|ev evs IH]; intros s; simpl.
  - apply tasks_evolve_refl.
  - eapply tasks_evolve_trans; [apply step_evolves|apply IH].
Qed.

(** [startLoading], by the entry it finds after the cancellation
    step. *)
Lemma startLoading_cases rq isRefetch s :
  let key := getKey rq in
  let s1 := preempt key rq isRefetch s in
  startLoading rq isRefetch s =
    match cache_get key (cache s1) with
    | None =>
        let e' := {| status := Pending; value := VPromise (length (tasks s1));
                     next := None; args := rq |} in
        (with_cache (cache_set key e' (cache s1))
           (with_tasks
              (tasks s1 ++ [{| meta := rq; task_key := key; aborted := false;
                               started := false; result := None |}]) s1),
         Some e')
    | Some e =>
        if isRefetch && negb (bool_decide (status e = Pending)) then
          let e' := {| status := status e; value := value e;
                       next := Some (length (tasks s1)); args := rq |} in
          (with_cache (cache_set key e' (cache s1))
             (with_tasks
                (tasks s1 ++ [{| meta := rq; task_key := key; aborted := false;
                                 started := false; result := None |}]) s1),
           Some e')
        else (s1, Some e)
    end.
Proof.
  intros key s1. unfold startLoading. fold key. fold s1.
  destruct (cache_get key (cache s1)) as [e|] eqn:He; simpl.
  - destruct isRefetch; simpl; [|by rewrite He].
    destruct (bool_decide (status e = Pending)); simpl; [by rewrite He|].
    by rewrite cache_get_set_eq.
  - by rewrite cache_get_set_eq.
Qed.

(** ** C2 *)


(** ** The invariant of the engine *)

Lemma Inv_init : Inv init.
Proof. split; intros ?? H; done. Qed.

(** Frame lemmas for [entry_ok]. *)

Lemma entry_ok_insert ts t tk tk' key e :
  ts !! t = Some tk →
  meta tk' = meta tk → task_key tk' = task_key tk →
  (live tk → live tk' ∨ task_key tk ≠ key ∨ (status e ≠ Pending ∧ next e = None)) →
  entry_ok ts key e → entry_ok (<[t := tk']> ts) key e.
Proof.
  intros Ht Hm Hk Hl (t0 & tk0 & Ht0 & Hk0 & Hm0 & Hlat & Hp & Hn).
  assert (latest key t0 (<[t := tk']> ts)) as Hlat'.
  { intros t1 tk1 Ht1 Hk1. destruct (decide (t = t1)) as [->|Hne].
    - rewrite list_lookup_insert_eq in Ht1 by (by eapply lookup_lt_Some).
      simplify_eq. eapply Hlat; [done|]. congruence.
    - rewrite list_lookup_insert_ne in Ht1 by done. eauto. }
  destruct (decide (t = t0)) as [->|Hne].
  - simplify_eq. exists t0, tk'.
    rewrite list_lookup_insert_eq by (by eapply lookup_lt_Some).
    split_and!; try done; try congruence.
    + intros Hst. destruct (Hp Hst) as (? & ? & Hlive).
      destruct (Hl Hlive) as [?|[?|[? ?]]]; done.
    + intros n Hnx. destruct (Hn n Hnx) as (? & Hlive).
      destruct (Hl Hlive) as [?|[?|[? ?]]]; [done|done|congruence].
  - exists t0, tk0. rewrite list_lookup_insert_ne by done. done.
Qed.

Lemma entry_ok_app ts tk key e :
  task_key tk ≠ key → entry_ok ts key e → entry_ok (ts ++ [tk]) key e.
Proof.
  intros Hk (t0 & tk0 & Ht0 & Hk0 & Hm0 & Hlat & Hp & Hn).
  exists t0, tk0. split_and!; try done.
  - by apply lookup_app_l_Some.
  - intros t1 tk1 Ht1 Hk1. apply lookup_app_Some in Ht1 as [Ht1|[_ Ht1]].
    + eauto.
    + apply list_lookup_singleton_Some in Ht1 as [_ <-]. done.
Qed.

(** The entry made for a new attempt. *)
Lemma entry_ok_new ts rq key e :
  args e = rq →
  (status e = Pending → value e = VPromise (length ts) ∧ next e = None) →
  (∀ n, next e = Some n → n = length ts) →
  entry_ok
    (ts ++ [{| meta := rq; task_key := key; aborted := false;
               started := false; result := None |}]) key e.
Proof.
  intros Ha Hp Hn. eexists (length ts), _. split_and!.
  - by apply list_lookup_middle.
  - done.
  - done.
  - intros t1 tk1 Ht1 _. apply lookup_lt_Some in Ht1.
    rewrite length_app in Ht1. simpl in Ht1. lia.
  - intros Hst. destruct (Hp Hst). done.
  - intros n Hnx. split; [eauto|done].
Qed.

Lemma cache_get_delete_Some key key' c e :
  cache_get key' (cache_delete key c) = Some e →
  key ≠ key' ∧ cache_get key' c = Some e.
Proof.
  intros H. destruct (decide (key = key')) as [->|Hne].
  - by rewrite cache_get_delete_eq in H.
  - by rewrite cache_get_delete_ne in H.
Qed.

Lemma Inv_ext s s' : tasks s' = tasks s → cache s' = cache s → Inv s → Inv s'.
Proof. intros Ht Hc [H1 H2]. split; rewrite ?Ht, ?Hc; done. Qed.

(** The task of a Pending entry. *)
Lemma Inv_pending s key e t :
  Inv s → cache_get key (cache s) = Some e → status e = Pending →
  value e = VPromise t →
  ∃ tk, tasks s !! t = Some tk ∧ task_key tk = key ∧ meta tk = args e ∧
    latest key t (tasks s) ∧ live tk ∧ next e = None.
Proof.
  intros [_ H2] He Hst Hv.
  destruct (H2 key e He) as (t0 & tk0 & Ht0 & Hk0 & Hm0 & Hlat & Hp & _).
  destruct (Hp Hst) as (Hv' & Hnx & Hl).
  assert (t0 = t) as -> by congruence. eauto 10.
Qed.

Lemma Inv_submit s key rq e' :
  Inv s → key = getKey rq → args e' = rq →
  (status e' = Pending → value e' = VPromise (length (tasks s)) ∧ next e' = None) →
  (∀ n, next e' = Some n → n = length (tasks s)) →
  Inv (with_cache (cache_set key e' (cache s))
         (with_tasks
            (tasks s ++ [{| meta := rq; task_key := key; aborted := false;
                            started := false; result := None |}]) s)).
Proof.
  intros [H1 H2] Hk Ha Hp Hn. split; simpl.
  - intros t tk Ht. apply lookup_app_Some in Ht as [Ht|[_ Ht]]; [eauto|].
    apply list_lookup_singleton_Some in Ht as [_ <-].
    unfold task_ok. simpl. by split_and!.
  - intros key' e He. destruct (decide (key = key')) as [<-|Hne].
    + rewrite cache_get_set_eq in He. simplify_eq. by apply entry_ok_new.
    + rewrite cache_get_set_ne in He by done. apply entry_ok_app; [done|]. eauto.
Qed.

Lemma Inv_cancel s key e t tk :
  Inv s → cache_get key (cache s) = Some e → status e = Pending →
  value e = VPromise t → tasks s !! t = Some tk → started tk = false →
  Inv (with_cache (cache_delete key (cache s))
         (with_tasks
            (<[t := {| meta := meta tk; task_key := task_key tk; aborted := true;
                       started := started tk; result := result tk |}]> (tasks s)) s)).
Proof.
  intros HI He Hst Hv Ht Hns.
  destruct (Inv_pending s key e t HI He Hst Hv) as (tk' & Ht' & Hk & _).
  assert (tk' = tk) as -> by congruence.
  destruct HI as [H1 H2]. split; simpl.
  - intros t1 tk1 Ht1. destruct (decide (t = t1)) as [->|Hne].
    + rewrite list_lookup_insert_eq in Ht1 by (by eapply lookup_lt_Some).
      simplify_eq. destruct (H1 _ _ Ht) as (? & ? & ?).
      unfold task_ok. simpl. by split_and!.
    + rewrite list_lookup_insert_ne in Ht1 by done. eauto.
  - intros key' e' He'. apply cache_get_delete_Some in He' as [Hne He'].
    eapply entry_ok_insert; [done|done|done| |eauto].
    intros _. right. left. congruence.
Qed.

(** A request that is not a refresh either leaves the state alone or
    cancels the unstarted attempt of a Pending entry and deletes the
    entry. *)
Lemma preempt_read_cases key rq s :
  Inv s →
  preempt key rq false s = s ∨
  ∃ e t tk, cache_get key (cache s) = Some e ∧ status e = Pending ∧
    value e = VPromise t ∧ tasks s !! t = Some tk ∧ started tk = false ∧
    num_ltb (priorityOr0 (args e)) (priorityOr0 rq) = true ∧
    preempt key rq false s =
      with_cache (cache_delete key (cache s))
        (with_tasks
           (<[t := {| meta := meta tk; task_key := task_key tk; aborted := true;
                      started := started tk; result := result tk |}]> (tasks s)) s).
Proof.
  intros HI. unfold preempt.
  destruct (cache_get key (cache s)) as [e|] eqn:He; [|by left].
  destruct (num_ltb _ _) eqn:Hlt; [|by left]. simpl.
  destruct (status e) eqn:Hst; [|by left..].
  destruct (value e) as [t| |] eqn:Hv; [|by left..].
  unfold abort. destruct (tasks s !! t) as [tk|] eqn:Ht; [|by left].
  destruct (started tk) eqn:Hs.
  - destruct (aborted tk) eqn:Hab; [|by left].
    destruct HI as [H1 _]. destruct (H1 _ _ Ht) as (_ & Hc & _).
    rewrite Hc in Hs; done.
  - right. exists e, t, tk. by rewrite Hs.
Qed.

Lemma Inv_preempt_read key rq s : Inv s → Inv (preempt key rq false s).
Proof.
  intros HI. destruct (preempt_read_cases key rq s HI)
    as [->|(e & t & tk & He & Hst & Hv & Ht & Hs & _ & ->)]; [done|].
  by eapply Inv_cancel.
Qed.

Lemma Inv_startLoading_read rq s : Inv s → Inv (startLoading rq false s).1.
Proof.
  intros HI. apply (Inv_preempt_read (getKey rq) rq) in HI.
  rewrite startLoading_cases. simpl.
  destruct (cache_get _ _) as [e|] eqn:He; simpl; [done|].
  by apply Inv_submit.
Qed.

Lemma Inv_invalidate rq s : Inv s → Inv (invalidate rq s).
Proof.
  intros HI. destruct (invalidate_cases rq s)
    as [((_ & e' & He' & Hst & Hnx) & e & He & Hts & Hc & _)|(_ & Hts & Hc & _)].
  - assert (e' = e) as -> by congruence.
    eapply (Inv_ext
      (with_cache (cache_set (getKey rq)
         {| status := status e; value := value e;
            next := Some (length (tasks s)); args := rq |} (cache s))
         (with_tasks
            (tasks s ++ [{| meta := rq; task_key := getKey rq; aborted := false;
                            started := false; result := None |}]) s))); [done|done|].
    apply Inv_submit; simpl; try done. by intros n [= <-].
  - destruct HI as [H1 H2]. split; rewrite ?Hts, ?Hc; [done|].
    intros key e He. apply cache_get_delete_Some in He as [_ He]. eauto.
Qed.

Lemma Inv_invalidateAll onlyRejected s : Inv s → Inv (invalidateAll onlyRejected s).
Proof.
  unfold invalidateAll. generalize (map snd (cache s)). intros l.
  revert s. induction l as [|e l IH]; intros s HI; simpl; [done|].
  apply IH. destruct (_ || _); [by apply Inv_invalidate|done].
Qed.

Lemma Inv_start_task t s : Inv s → Inv (start_task t s).
Proof.
  intros HI. unfold start_task.
  destruct (tasks s !! t) as [tk|] eqn:Ht; [|done].
  destruct (aborted tk) eqn:Hab; [done|].
  destruct (started tk) eqn:Hs; [done|].
  destruct HI as [H1 H2]. split; simpl.
  - intros t1 tk1 Ht1. destruct (decide (t = t1)) as [->|Hne].
    + rewrite list_lookup_insert_eq in Ht1 by (by eapply lookup_lt_Some).
      simplify_eq. destruct (H1 _ _ Ht) as (? & ? & ?).
      unfold task_ok. simpl. split_and!; (done || congruence).
    + rewrite list_lookup_insert_ne in Ht1 by done. eauto.
  - intros key e He. eapply entry_ok_insert; [done|done|done| |eauto].
    intros [_ Hr]. left. by split.
Qed.

Lemma Inv_settle_task t o s : Inv s → Inv (settle_task t o s).
Proof.
  intros HI. unfold settle_task.
  destruct (tasks s !! t) as [tk|] eqn:Ht; [|done].
  destruct (started tk) eqn:Hs; [|done].
  destruct (result tk) eqn:Hres; [done|]. simpl.
  destruct HI as [H1 H2].
  set (tk' := {| meta := meta tk; task_key := task_key tk; aborted := aborted tk;
                 started := true; result := Some o |}).
  assert (∀ t1 tk1, <[t := tk']> (tasks s) !! t1 = Some tk1 → task_ok tk1) as H1'.
  { intros t1 tk1 Ht1. destruct (decide (t = t1)) as [->|Hne].
    - rewrite list_lookup_insert_eq in Ht1 by (by eapply lookup_lt_Some).
      simplify_eq. destruct (H1 _ _ Ht) as (? & Hc & ?).
      unfold task_ok. simpl. split_and!; [done| |done].
      intros Hab. rewrite (Hc Hab) in Hs. done.
    - rewrite list_lookup_insert_ne in Ht1 by done. eauto. }
  assert (∀ key e, key ≠ task_key tk → cache_get key (cache s) = Some e →
            entry_ok (<[t := tk']> (tasks s)) key e) as H2'.
  { intros key e Hne He. eapply entry_ok_insert; [done|done|done| |eauto].
    intros _. right. by left. }
  destruct (cache_get (task_key tk) (cache s)) as [e0|] eqn:He0.
  - split; simpl; [done|]. intros key e He.
    destruct (decide (task_key tk = key)) as [<-|Hne].
    + rewrite cache_get_set_eq in He. simplify_eq.
      destruct (H2 _ _ He0) as (t0 & tk0 & Ht0 & Hk0 & Hm0 & Hlat & _).
      assert (entry_ok (tasks s) (task_key tk)
                {| status := settled_status o; value := settled_value o;
                   next := None; args := args e0 |}) as Hok.
      { exists t0, tk0. split_and!; try done. by destruct o. }
      eapply entry_ok_insert; [done|done|done| |done].
      intros _. right. right. by destruct o.
    + rewrite cache_get_set_ne in He by done. eauto.
  - split; simpl; [done|]. intros key e He.
    destruct (decide (task_key tk = key)) as [<-|Hne]; [congruence|]. eauto.
Qed.

Lemma Inv_step s ev : Inv s → Inv (step s ev).
Proof.
  intros HI. destruct ev; cbn [step].
  - rewrite read_state. by apply Inv_startLoading_read.
  - rewrite preload_state. by apply Inv_startLoading_read.
  - by apply Inv_invalidate.
  - by apply Inv_invalidateAll.
  - by eapply Inv_ext.
  - by eapply Inv_ext.
  - by apply Inv_start_task.
  - by apply Inv_settle_task.
Qed.

Lemma Inv_run evs s : Inv s → Inv (run evs s).
Proof.
  revert s. induction evs as [|ev evs IH]; intros s HI; simpl; [done|].
  by apply IH, Inv_step.
Qed.

(** ** C7 *)

(** C7, as the code has it: in every state a run reaches from the
    initial one, the [args] of an entry is the request of the attempt
    handed to the queue last for the fingerprint; this attempt is the
    value of a Pending entry and the [next] of a refreshing one, so that
    during a refresh [args] is the request of the refresh. *)
Theorem args_is_request_of_latest_attempt (evs : list Event) (key : string)
  (e : CacheStatus) :
  let s := run evs init in
  cache_get key (cache s) = Some e →
  ∃ t tk, tasks s !! t = Some tk ∧ task_key tk = key ∧
    latest key t (tasks s) ∧ args e = meta tk ∧ getKey (args e) = key ∧
    (status e = Pending → value e = VPromise t) ∧
    (∀ n, next e = Some n → n = t ∧ status e ≠ Pending).
Proof.
  intros s He. destruct (Inv_run evs init Inv_init) as [H1 H2]. fold s in H1, H2.
  destruct (H2 key e He) as (t & tk & Ht & Hk & Hm & Hlat & Hp & Hn).
  exists t, tk. split_and!; try done.
  - destruct (H1 t tk Ht) as (Hkey & _). congruence.
  - intros Hst. by destruct (Hp Hst).
  - intros n Hnx. destruct (Hn n Hnx) as [-> _]. split; [done|].
    intros Hst. destruct (Hp Hst) as (_ & ? & _). congruence.
Qed.

(** ** What a request does to the state *)

Lemma startLoading_read_cases rq s :
  Inv s →
  let key := getKey rq in
  (∃ e, cache_get key (cache s) = Some e ∧ startLoading rq false s = (s, Some e)) ∨
  (cache_get key (cache s) = None ∧
   (startLoading rq false s).1 =
     fresh key rq (pending_entry rq (length (tasks s))) s) ∨
  (∃ e t tk, cache_get key (cache s) = Some e ∧ status e = Pending ∧
     value e = VPromise t ∧ tasks s !! t = Some tk ∧ started tk = false ∧
     task_key tk = key ∧ live tk ∧
     num_ltb (priorityOr0 (args e)) (priorityOr0 rq) = true ∧
     (startLoading rq false s).1 =
       fresh key rq (pending_entry rq (length (tasks s))) (cancel key t tk s)).
Proof.
  intros HI key. rewrite startLoading_cases. fold key. simpl.
  destruct (preempt_read_cases key rq s HI)
    as [->|(e & t & tk & He & Hst & Hv & Ht & Hs & Hlt & ->)].
  - destruct (cache_get key (cache s)) as [e|] eqn:He.
    + left. eauto.
    + right. left. done.
  - right. right. exists e, t, tk.
    destruct (Inv_pending s key e t HI He Hst Hv) as (tk' & Ht' & Hk & _ & _ & Hl & _).
    assert (tk' = tk) as -> by congruence.
    split_and!; try done. simpl. rewrite cache_get_delete_eq.
    simpl. by rewrite length_insert.
Qed.

(** ** Attempts in flight and the entries that hold them *)

Lemma referenced_unique key s t1 tk1 t2 tk2 :
  Inv s → referenced key s →
  tasks s !! t1 = Some tk1 → task_key tk1 = key → live tk1 →
  tasks s !! t2 = Some tk2 → task_key tk2 = key → live tk2 →
  t1 = t2.
Proof.
  intros [_ H2] Hr Ht1 Hk1 Hl1 Ht2 Hk2 Hl2.
  destruct (Hr t1 tk1 Ht1 Hk1 Hl1) as (e & He & Hc1).
  destruct (Hr t2 tk2 Ht2 Hk2 Hl2) as (e' & He' & Hc2).
  assert (e' = e) as -> by congruence.
  destruct (H2 key e He) as (t0 & tk0 & _ & _ & _ & _ & Hp & Hn).
  assert (∀ t, (status e = Pending ∧ value e = VPromise t) ∨ next e = Some t → t = t0) as Hu.
  { intros t [[Hst Hv]|Hnx].
    - destruct (Hp Hst) as (Hv' & _). congruence.
    - by destruct (Hn t Hnx). }
  rewrite (Hu t1 Hc1), (Hu t2 Hc2). done.
Qed.

Lemma referenced_absent key s :
  referenced key s → cache_get key (cache s) = None → no_live key s.
Proof.
  intros Hr Hnone t tk Ht Hk Hl. destruct (Hr t tk Ht Hk Hl) as (e & He & _).
  congruence.
Qed.

Lemma referenced_settled key s e :
  referenced key s → cache_get key (cache s) = Some e →
  status e ≠ Pending → next e = None → no_live key s.
Proof.
  intros Hr He Hst Hnx t tk Ht Hk Hl.
  destruct (Hr t tk Ht Hk Hl) as (e' & He' & [[? _]|?]); congruence.
Qed.

Lemma referenced_no_live key s : no_live key s → referenced key s.
Proof. intros Hn t tk Ht Hk Hl. by destruct (Hn t tk Ht Hk Hl). Qed.

(** Nothing of [key] changed, except that attempts of [key] may have
    left flight. *)
Lemma referenced_frame key s s' :
  (∀ t tk', tasks s' !! t = Some tk' → task_key tk' = key → live tk' →
     ∃ tk, tasks s !! t = Some tk ∧ task_key tk = key ∧ live tk) →
  cache_get key (cache s') = cache_get key (cache s) →
  referenced key s → referenced key s'.
Proof.
  intros Hts Hc Hr t tk' Ht Hk Hl. rewrite Hc.
  destruct (Hts t tk' Ht Hk Hl) as (tk & Ht0 & Hk0 & Hl0). eauto.
Qed.

Lemma referenced_fresh key key' rq e' s :
  (key' = key → no_live key s ∧
     ((status e' = Pending ∧ value e' = VPromise (length (tasks s))) ∨
      next e' = Some (length (tasks s)))) →
  referenced key s → referenced key (fresh key' rq e' s).
Proof.
  intros Hsame Hr. destruct (decide (key' = key)) as [->|Hne].
  - destruct (Hsame eq_refl) as [Hn He']. intros t tk Ht Hk Hl.
    simpl in Ht. apply lookup_app_Some in Ht as [Ht|[Hlen Ht]].
    + by destruct (Hn t tk Ht Hk Hl).
    + apply list_lookup_singleton_Some in Ht as [Hz _].
      assert (t = length (tasks s)) as -> by lia.
      exists e'. simpl. by rewrite cache_get_set_eq.
  - eapply referenced_frame; [| |done].
    + intros t tk Ht Hk Hl. simpl in Ht.
      apply lookup_app_Some in Ht as [Ht|[_ Ht]]; [eauto|].
      apply list_lookup_singleton_Some in Ht as [_ <-]. done.
    + simpl. by rewrite cache_get_set_ne.
Qed.

Lemma cancel_no_live key s e t tk :
  Inv s → referenced key s →
  cache_get key (cache s) = Some e → status e = Pending →
  value e = VPromise t → tasks s !! t = Some tk →
  no_live key (cancel key t tk s).
Proof.
  intros HI Hr He Hst Hv Ht t1 tk1 Ht1 Hk1 Hl1. simpl in Ht1.
  apply list_lookup_insert_Some in Ht1 as [(-> & <- & _)|(Hne & Ht1)].
  - by destruct Hl1.
  - destruct (Hr t1 tk1 Ht1 Hk1 Hl1) as (e' & He' & Hc).
    assert (e' = e) as -> by congruence.
    destruct (Inv_pending s key e t HI He Hst Hv) as (_ & _ & _ & _ & _ & _ & Hnx).
    destruct Hc as [[_ ?]|?]; congruence.
Qed.

Lemma referenced_cancel key key' s e t tk :
  Inv s → referenced key s →
  cache_get key' (cache s) = Some e → status e = Pending →
  value e = VPromise t → tasks s !! t = Some tk →
  referenced key (cancel key' t tk s).
Proof.
  intros HI Hr He Hst Hv Ht. destruct (decide (key' = key)) as [->|Hne].
  - apply referenced_no_live. by eapply cancel_no_live.
  - destruct (Inv_pending s key' e t HI He Hst Hv) as (tk' & Ht' & Hk & _).
    assert (tk' = tk) as -> by congruence.
    eapply referenced_frame; [| |done].
    + intros t1 tk1 Ht1 Hk1 Hl1. simpl in Ht1.
      apply list_lookup_insert_Some in Ht1 as [(-> & <- & _)|(_ & Ht1)]; [|eauto].
      simpl in Hk1. congruence.
    + simpl. by rewrite cache_get_delete_ne.
Qed.

Lemma referenced_startLoading_read key rq s :
  Inv s → referenced key s → referenced key (startLoading rq false s).1.
Proof.
  intros HI Hr. destruct (startLoading_read_cases rq s HI)
    as [(e & He & ->)|[(Hnone & ->)|(e & t & tk & He & Hst & Hv & Ht & Hs & Hk & Hl & _ & ->)]].
  - done.
  - apply referenced_fresh; [|done]. intros <-. split; [|by left].
    by apply referenced_absent.
  - apply referenced_fresh.
    + intros <-. split.
      * by eapply cancel_no_live.
      * left. simpl. by rewrite length_insert.
    + by eapply referenced_cancel.
Qed.

Lemma referenced_start_task key t s :
  referenced key s → referenced key (start_task t s).
Proof.
  intros Hr. unfold start_task.
  destruct (tasks s !! t) as [tk|] eqn:Ht; [|done].
  destruct (aborted tk) eqn:Hab; [done|].
  destruct (started tk) eqn:Hs; [done|].
  eapply referenced_frame; [| |done]; [|done].
  intros t1 tk1 Ht1 Hk1 Hl1. simpl in Ht1.
  apply list_lookup_insert_Some in Ht1 as [(-> & <- & _)|(_ & Ht1)]; [|eauto].
  exists tk. destruct Hl1 as [_ Hres]. simpl in *. by split_and!.
Qed.

Lemma referenced_settle_task key t o s :
  Inv s → referenced key s → referenced key (settle_task t o s).
Proof.
  intros HI Hr. unfold settle_task.
  destruct (tasks s !! t) as [tk|] eqn:Ht; [|done].
  destruct (started tk) eqn:Hs; [|done].
  destruct (result tk) eqn:Hres; [done|]. simpl.
  set (tk' := {| meta := meta tk; task_key := task_key tk; aborted := aborted tk;
                 started := true; result := Some o |}).
  assert (∀ t1 tk1, <[t := tk']> (tasks s) !! t1 = Some tk1 → live tk1 →
            t1 ≠ t ∧ tasks s !! t1 = Some tk1) as Hback.
  { intros t1 tk1 Ht1 Hl1.
    apply list_lookup_insert_Some in Ht1 as [(-> & <- & _)|(? & Ht1)]; [|done].
    by destruct Hl1. }
  assert (live tk) as Hl.
  { split; [|done]. destruct HI as [H1 _]. destruct (H1 _ _ Ht) as (_ & Hc & _).
    destruct (aborted tk); [|done]. rewrite Hc in Hs; done. }
  destruct (cache_get (task_key tk) (cache s)) as [e0|] eqn:He0.
  - destruct (decide (task_key tk = key)) as [Heq|Hne].
    + apply referenced_no_live. intros t1 tk1 Ht1 Hk1 Hl1. simpl in Ht1.
      destruct (Hback t1 tk1 Ht1 Hl1) as [Hne Ht1'].
      apply Hne. by eapply (referenced_unique key s).
    + eapply referenced_frame; [| |done].
      * intros t1 tk1 Ht1 Hk1 Hl1. simpl in Ht1.
        destruct (Hback t1 tk1 Ht1 Hl1) as [_ Ht1']. eauto.
      * simpl. by rewrite cache_get_set_ne.
  - eapply referenced_frame; [| |done]; [|done].
    intros t1 tk1 Ht1 Hk1 Hl1. simpl in Ht1.
    destruct (Hback t1 tk1 Ht1 Hl1) as [_ Ht1']. eauto.
Qed.

(** ** C6 *)

Lemma referenced_invalidate key rq s :
  referenced key s → quiet_invalidate key rq s →
  referenced key (invalidate rq s).
Proof.
  intros Hr Hq. destruct (invalidate_cases rq s)
    as [((_ & e' & He' & Hst & Hnx) & e & He & Hts & Hc & _)|(Hnc & Hts & Hc & _)].
  - assert (e' = e) as -> by congruence.
    eapply (referenced_frame key
      (fresh (getKey rq) rq
         {| status := status e; value := value e;
            next := Some (length (tasks s)); args := rq |} s));
      [by rewrite Hts; eauto|by rewrite Hc|].
    apply referenced_fresh; [|done]. intros Hk. split; [|by right].
    subst key. by eapply referenced_settled.
  - destruct (decide (getKey rq = key)) as [Hk|Hne].
    + apply referenced_no_live. subst key. destruct (Hq eq_refl) as [?|Hn]; [done|].
      intros t tk Ht. rewrite Hts in Ht. eauto.
    + eapply referenced_frame; [| |done].
      * rewrite Hts. eauto.
      * rewrite Hc. by rewrite cache_get_delete_ne.
Qed.

Lemma referenced_invalidateAll key onlyRejected s :
  Inv s → referenced key s →
  quiet_invalidates key onlyRejected (map snd (cache s)) s →
  referenced key (invalidateAll onlyRejected s).
Proof.
  unfold invalidateAll. generalize (map snd (cache s)). intros l.
  revert s. induction l as [|e l IH]; intros s HI Hr Hq; simpl in *; [done|].
  destruct (_ || _).
  - destruct Hq as [Hq1 Hq2]. apply IH; [by apply Inv_invalidate| |done].
    by apply referenced_invalidate.
  - by apply IH.
Qed.

Lemma referenced_step key s ev :
  Inv s → referenced key s → quiet key s ev → referenced key (step s ev).
Proof.
  intros HI Hr Hq. destruct ev; cbn [step].
  - rewrite read_state. by apply referenced_startLoading_read.
  - rewrite preload_state. by apply referenced_startLoading_read.
  - by apply referenced_invalidate.
  - by apply referenced_invalidateAll.
  - done.
  - done.
  - by apply referenced_start_task.
  - by apply referenced_settle_task.
Qed.

Lemma referenced_run key evs s :
  Inv s → referenced key s → quiet_run key evs s → referenced key (run evs s).
Proof.
  revert s. induction evs as [|ev evs IH]; intros s HI Hr Hq; simpl in *; [done|].
  destruct Hq as [Hq1 Hq2]. apply IH; [by apply Inv_step| |done].
  by apply referenced_step.
Qed.

Lemma referenced_init key : referenced key init.
Proof. intros t tk Ht. done. Qed.

(** C6, as the code has it: in every state a run reaches from the
    initial one, the value of a Pending entry is an attempt of the
    fingerprint that is neither settled nor cancelled, and the one handed
    to the queue last; it is the only such attempt when no [invalidate]
    of the run (direct or through [invalidateAll]) deleted the entry of
    the fingerprint while an attempt of the fingerprint was in flight. *)
Theorem pending_value_is_latest_attempt (evs : list Event) (key : string)
  (e : CacheStatus) :
  let s := run evs init in
  cache_get key (cache s) = Some e →
  status e = Pending →
  ∃ t tk, value e = VPromise t ∧ tasks s !! t = Some tk ∧
    task_key tk = key ∧ live tk ∧ latest key t (tasks s) ∧
    (quiet_run key evs init →
     ∀ t' tk', tasks s !! t' = Some tk' → task_key tk' = key → live tk' → t' = t).
Proof.
  intros s He Hst. pose proof (Inv_run evs init Inv_init) as HI. fold s in HI.
  destruct HI as [H1 H2].
  destruct (H2 key e He) as (t & tk & Ht & Hk & Hm & Hlat & Hp & Hn).
  destruct (Hp Hst) as (Hv & Hnx & Hl).
  exists t, tk. split_and!; try done.
  intros Hq t' tk' Ht' Hk' Hl'.
  eapply (referenced_unique key s); try done.
  apply referenced_run; [apply Inv_init|apply referenced_init|done].
Qed.

(** ** Calls of fetchData *)

Section counting.
Context {A : Type} (P : A → Prop) `{∀ x, Decision (P x)}.

Lemma count_insert_same (l : list A) i x y :
  l !! i = Some x → (P x ↔ P y) →
  length (filter P (<[i := y]> l)) = length (filter P l).
Proof.
  intros Hi Hxy. rewrite insert_take_drop by (by eapply lookup_lt_Some).
  rewrite <- (take_drop_middle l i x Hi) at 3.
  rewrite !filter_app, !length_app, !filter_cons.
  destruct (decide (P x)), (decide (P y)); simpl; tauto || lia.
Qed.

Lemma count_insert_new (l : list A) i x y :
  l !! i = Some x → ¬ P x → P y →
  length (filter P (<[i := y]> l)) = S (length (filter P l)).
Proof.
  intros Hi Hx Hy. rewrite insert_take_drop by (by eapply lookup_lt_Some).
  rewrite <- (take_drop_middle l i x Hi) at 3.
  rewrite !filter_app, !length_app, !filter_cons.
  rewrite decide_True, decide_False by done. simpl. lia.
Qed.

Lemma count_le_1 (l : list A) :
  (∀ i j x y, l !! i = Some x → l !! j = Some y → P x → P y → i = j) →
  length (filter P l) ≤ 1.
Proof.
  induction l as [|x l IH]; intros Hu; simpl; [lia|].
  rewrite filter_cons. destruct (decide (P x)) as [Hx|Hx]; simpl.
  - assert (filter P l = []) as ->; [|simpl; lia].
    destruct (filter P l) as [|y l'] eqn:Hf; [done|].
    assert (y ∈ filter P l) as Hy by (rewrite Hf; left).
    apply list_elem_of_filter in Hy as [Hy Hin].
    apply list_elem_of_lookup in Hin as [j Hj].
    specialize (Hu 0 (S j) x y eq_refl Hj Hx Hy). lia.
  - apply IH. intros i j a b Hi Hj Ha Hb.
    specialize (Hu (S i) (S j) a b Hi Hj Ha Hb). lia.
Qed.

Lemma count_ge_1 (l : list A) i x :
  l !! i = Some x → P x → 1 ≤ length (filter P l).
Proof.
  intros Hi Hx. assert (x ∈ filter P l) as Hin.
  { apply list_elem_of_filter. split; [done|]. apply list_elem_of_lookup. eauto. }
  destruct (filter P l); [by apply not_elem_of_nil in Hin|simpl; lia].
Qed.
End counting.

Lemma sync_ext key s s' :
  fetched s' = fetched s → started_count key s' = started_count key s →
  sync key s → sync key s'.
Proof. unfold sync, fetch_calls. intros -> ->. done. Qed.

Lemma started_count_app key rq s s' :
  tasks s' = (tasks s ++ [new_task key rq])%list →
  ∀ key', started_count key' s' = started_count key' s.
Proof.
  intros Hts key'. unfold started_count. rewrite Hts, filter_app, length_app.
  rewrite filter_cons_False; [simpl; lia|]. simpl. intros [_ ?]. done.
Qed.

Lemma started_count_insert key s s' t tk tk' :
  tasks s' = <[t := tk']> (tasks s) → tasks s !! t = Some tk →
  task_key tk' = task_key tk → started tk' = started tk →
  started_count key s' = started_count key s.
Proof.
  intros Hts Ht Hk Hs. unfold started_count. rewrite Hts.
  apply (count_insert_same _ _ _ tk); [done|]. by rewrite Hk, Hs.
Qed.

Lemma abort_fetched t s : fetched (abort t s).1 = fetched s.
Proof.
  unfold abort. destruct (tasks s !! t) as [tk|]; [|done]. by destruct (started tk).
Qed.

Lemma abort_started_count key t s :
  started_count key (abort t s).1 = started_count key s.
Proof.
  unfold abort. destruct (tasks s !! t) as [tk|] eqn:Ht; [|done].
  destruct (started tk) eqn:Hs; [done|]. simpl.
  by eapply started_count_insert.
Qed.

Lemma preempt_sync key key' rq isRefetch s :
  fetched (preempt key' rq isRefetch s) = fetched s ∧
  started_count key (preempt key' rq isRefetch s) = started_count key s.
Proof.
  unfold preempt. destruct (cache_get key' (cache s)) as [e|]; [|done].
  destruct (num_ltb _ _); [|done].
  assert (∀ s0 t,
    fetched (let '(s2, c) := abort t s0 in
             if c then with_cache (cache_delete key' (cache s2)) s2 else s2)
      = fetched s0 ∧
    started_count key (let '(s2, c) := abort t s0 in
             if c then with_cache (cache_delete key' (cache s2)) s2 else s2)
      = started_count key s0) as Hab.
  { intros s0 t. pose proof (abort_fetched t s0) as Hf.
    pose proof (abort_started_count key t s0) as Hc.
    destruct (abort t s0) as [s2 []]; simpl in *; done. }
  destruct (if isRefetch then next e else None) as [n|].
  - pose proof (abort_fetched n s) as Hf.
    pose proof (abort_started_count key n s) as Hc.
    destruct (abort n s) as [s1 c1]. simpl in Hf, Hc. destruct c1; [done|].
    destruct (status e), (value e) as [t| |]; try done.
    destruct (Hab s1 t) as [-> ->]. done.
  - destruct (status e), (value e) as [t| |]; done.
Qed.

Lemma startLoading_sync key rq isRefetch s :
  fetched (startLoading rq isRefetch s).1 = fetched s ∧
  started_count key (startLoading rq isRefetch s).1 = started_count key s.
Proof.
  destruct (preempt_sync key (getKey rq) rq isRefetch s) as [Hf Hc].
  rewrite startLoading_cases. simpl.
  destruct (cache_get _ _) as [e|]; simpl.
  - destruct (isRefetch && _); simpl; [|done]. split; [done|].
    by rewrite (started_count_app (getKey rq) rq (preempt (getKey rq) rq isRefetch s)).
  - split; [done|].
    by rewrite (started_count_app (getKey rq) rq (preempt (getKey rq) rq isRefetch s)).
Qed.

Lemma invalidate_sync key rq s :
  fetched (invalidate rq s) = fetched s ∧
  started_count key (invalidate rq s) = started_count key s.
Proof.
  unfold invalidate. destruct (refreshes _ _); [apply startLoading_sync|done].
Qed.

Lemma invalidateAll_sync key onlyRejected s :
  fetched (invalidateAll onlyRejected s) = fetched s ∧
  started_count key (invalidateAll onlyRejected s) = started_count key s.
Proof.
  unfold invalidateAll. generalize (map snd (cache s)). intros l.
  revert s. induction l as [|e l IH]; intros s; simpl; [done|].
  destruct (_ || _); [|apply IH].
  destruct (IH (invalidate (args e) s)) as [-> ->]. apply invalidate_sync.
Qed.

Lemma start_task_sync key t s : Inv s → sync key s → sync key (start_task t s).
Proof.
  intros [H1 _] Hs. unfold start_task.
  destruct (tasks s !! t) as [tk|] eqn:Ht; [|done].
  destruct (aborted tk) eqn:Hab; [done|].
  destruct (started tk) eqn:Hst; [done|].
  destruct (H1 t tk Ht) as (Hk & _).
  unfold sync, fetch_calls, started_count in *. simpl.
  rewrite filter_app, length_app, Hs.
  destruct (decide (task_key tk = key)) as [Heq|Hne].
  - rewrite filter_cons_True by congruence. simpl.
    rewrite (count_insert_new _ _ _ tk); [lia|done| |done].
    intros [_ ?]. congruence.
  - rewrite filter_cons_False by congruence. simpl.
    rewrite (count_insert_same _ _ _ tk); [lia|done|]. simpl.
    split; intros [? ?]; congruence.
Qed.

Lemma settle_task_sync key t o s :
  fetched (settle_task t o s) = fetched s ∧
  started_count key (settle_task t o s) = started_count key s.
Proof.
  unfold settle_task. destruct (tasks s !! t) as [tk|] eqn:Ht; [|done].
  destruct (started tk && _); [|done]. simpl.
  assert (∀ s', fetched s' = fetched s →
            tasks s' = <[t := {| meta := meta tk; task_key := task_key tk;
                                 aborted := aborted tk; started := started tk;
                                 result := Some o |}]> (tasks s) →
            fetched s' = fetched s ∧ started_count key s' = started_count key s) as Hgen.
  { intros s' Hf Hts. split; [done|]. by eapply started_count_insert. }
  destruct (cache_get _ _); by apply Hgen.
Qed.

Lemma sync_step key s ev : Inv s → sync key s → sync key (step s ev).
Proof.
  intros HI Hs. destruct ev; cbn [step].
  - rewrite read_state. destruct (startLoading_sync key rq false s). by eapply sync_ext.
  - rewrite preload_state. destruct (startLoading_sync key rq false s). by eapply sync_ext.
  - destruct (invalidate_sync key rq s). by eapply sync_ext.
  - destruct (invalidateAll_sync key onlyRejected s). by eapply sync_ext.
  - by eapply sync_ext.
  - by eapply sync_ext.
  - by apply start_task_sync.
  - destruct (settle_task_sync key t o s). by eapply sync_ext.
Qed.

(** ** C1 *)

Lemma dedup_event_quiet key s ev : dedup_event key s ev → quiet key s ev.
Proof. destruct ev; simpl; try done. intros Hne Heq. done. Qed.

Lemma startLoading_entry rq isRefetch s :
  is_Some (cache_get (getKey rq) (cache (startLoading rq isRefetch s).1)).
Proof.
  assert ((startLoading rq isRefetch s).2 =
          cache_get (getKey rq) (cache (startLoading rq isRefetch s).1)) as <- by done.
  rewrite startLoading_cases. simpl.
  destruct (cache_get _ _); [destruct (_ && _)|]; simpl; eauto.
Qed.

(** In the window the entry of [key] changes only into the Pending entry
    of a new attempt. *)
Lemma window_entry key s ev :
  Inv s → dedup_event key s ev →
  cache_get key (cache (step s ev)) = cache_get key (cache s) ∨
  ∃ rq t, cache_get key (cache (step s ev)) = Some (pending_entry rq t).
Proof.
  intros HI Hev.
  assert (∀ rq,
    cache_get key (cache (startLoading rq false s).1) = cache_get key (cache s) ∨
    ∃ rq' t, cache_get key (cache (startLoading rq false s).1) =
      Some (pending_entry rq' t)) as Hsl.
  { intros rq. destruct (startLoading_read_cases rq s HI)
      as [(e & He & ->)|[(Hnone & ->)|(e & t & tk & _ & _ & _ & _ & _ & _ & _ & _ & ->)]].
    - by left.
    - simpl. destruct (decide (getKey rq = key)) as [<-|Hne].
      + right. rewrite cache_get_set_eq. eauto.
      + left. by rewrite cache_get_set_ne.
    - simpl. destruct (decide (getKey rq = key)) as [<-|Hne].
      + right. rewrite cache_get_set_eq. eauto.
      + left. rewrite cache_get_set_ne by done. by rewrite cache_get_delete_ne. }
  destruct ev; cbn [step]; simpl in Hev.
  - rewrite read_state. apply Hsl.
  - rewrite preload_state. apply Hsl.
  - left. destruct (invalidate_cases rq s)
      as [(_ & e & _ & _ & -> & _)|(_ & _ & -> & _)].
    + by rewrite cache_get_set_ne.
    + by rewrite cache_get_delete_ne.
  - done.
  - by left.
  - by left.
  - left. unfold start_task. destruct (tasks s !! t) as [tk|]; [|done].
    destruct (aborted tk); [done|]. by destruct (started tk).
  - left. unfold settle_task. destruct (tasks s !! t) as [tk|] eqn:Ht; [|done].
    destruct (started tk && _); [|done]. simpl.
    destruct (cache_get (task_key tk) (cache s)); [|done]. simpl.
    rewrite cache_get_set_ne; [done|]. by apply Hev.
Qed.

Lemma unsettled_step key s ev :
  Inv s → dedup_event key s ev → unsettled key s → unsettled key (step s ev).
Proof.
  intros HI Hev Hu.
  assert (∀ rq, unsettled key (startLoading rq false s).1) as Hsl.
  { intros rq. destruct (startLoading_read_cases rq s HI)
      as [(e & He & ->)|[(Hnone & ->)|(e & t & tk & _ & _ & _ & Ht & _ & _ & _ & _ & ->)]].
    - done.
    - intros t1 tk1 Ht1 Hk1. simpl in Ht1.
      apply lookup_app_Some in Ht1 as [Ht1|[_ Ht1]]; [eauto|].
      by apply list_lookup_singleton_Some in Ht1 as [_ <-].
    - intros t1 tk1 Ht1 Hk1. simpl in Ht1.
      apply lookup_app_Some in Ht1 as [Ht1|[_ Ht1]].
      + apply list_lookup_insert_Some in Ht1 as [(-> & <- & _)|(_ & Ht1)]; [|eauto].
        simpl in *. eauto.
      + by apply list_lookup_singleton_Some in Ht1 as [_ <-]. }
  destruct ev; cbn [step]; simpl in Hev.
  - rewrite read_state. apply Hsl.
  - rewrite preload_state. apply Hsl.
  - destruct (invalidate_cases rq s)
      as [(_ & e & _ & Hts & _)|(_ & Hts & _)];
      intros t1 tk1 Ht1 Hk1; rewrite Hts in Ht1; [|eauto].
    apply lookup_app_Some in Ht1 as [Ht1|[_ Ht1]]; [eauto|].
    by apply list_lookup_singleton_Some in Ht1 as [_ <-].
  - done.
  - done.
  - done.
  - unfold start_task. destruct (tasks s !! t) as [tk|] eqn:Ht; [|done].
    destruct (aborted tk); [done|]. destruct (started tk); [done|].
    intros t1 tk1 Ht1 Hk1. simpl in Ht1.
    apply list_lookup_insert_Some in Ht1 as [(-> & <- & _)|(_ & Ht1)]; [|eauto].
    simpl in *. eauto.
  - intros t1 tk1 Ht1 Hk1.
    destruct (tasks s !! t) as [tk|] eqn:Ht;
      [|rewrite settle_task_noop in Ht1 by (intros; simplify_eq; congruence); eauto].
    destruct (started tk) eqn:Hst;
      [|rewrite settle_task_noop in Ht1 by (intros; simplify_eq; congruence); eauto].
    destruct (result tk) eqn:Hres;
      [rewrite settle_task_noop in Ht1 by (intros; simplify_eq; congruence); eauto|].
    rewrite (settle_task_tasks t o s tk) in Ht1 by done.
    apply list_lookup_insert_Some in Ht1 as [(-> & <- & _)|(_ & Ht1)]; [|eauto].
    simpl in Hk1. by destruct (Hev tk).
Qed.

Lemma window_inv_init key : window_inv key init.
Proof.
  split_and!; [apply Inv_init|apply referenced_init|done|by intros ???|by intros ??].
Qed.

Lemma window_inv_step key s ev :
  dedup_event key s ev → window_inv key s → window_inv key (step s ev).
Proof.
  intros Hev (HI & Hr & Hs & Hu & Hp). split_and!.
  - by apply Inv_step.
  - apply referenced_step; [done|done|]. by apply dedup_event_quiet.
  - by apply sync_step.
  - by apply unsettled_step.
  - intros e He. destruct (window_entry key s ev HI Hev) as [Heq|(rq & t & Hnew)].
    + rewrite Heq in He. eauto.
    + rewrite Hnew in He. by simplify_eq.
Qed.

Lemma window_run key evs s :
  dedup_window key evs s → window_inv key s →
  (is_Some (cache_get key (cache s)) ∨ Exists (reads key) evs) →
  window_inv key (run evs s) ∧ is_Some (cache_get key (cache (run evs s))).
Proof.
  revert s. induction evs as [|ev evs IH]; intros s Hw HW Hread; simpl in *.
  - split; [done|]. destruct Hread as [?|Hex]; [done|]. by apply Exists_nil in Hex.
  - destruct Hw as [Hev Hw]. apply IH; [done|by apply window_inv_step|].
    destruct HW as (HI & _).
    destruct Hread as [Hsome|Hex].
    + left. destruct (window_entry key s ev HI Hev) as [->|(rq & t & ->)]; eauto.
    + apply Exists_cons in Hex as [Hrd|Hex]; [|by right]. left.
      destruct ev; simpl in Hrd; try done; subst key; cbn [step].
      * rewrite read_state. apply startLoading_entry.
      * rewrite preload_state. apply startLoading_entry.
Qed.

(** C1: requests of one fingerprint are read or preloaded (at least
    once) while no attempt of the fingerprint settles and the fingerprint
    is not invalidated.  Then [fetchData] has been called at most once
    with a request of the fingerprint, and exactly once as soon as the
    queue has called the body of every attempt of the fingerprint that is
    not cancelled: exactly one attempt is not cancelled.  A request that
    finds an entry and is not a refresh hands nothing to the queue, and
    the body of a cancelled attempt returns before it calls
    [fetchData]. *)
Theorem concurrent_reads_fetch_once (key : string) (evs : list Event) :
  dedup_window key evs init →
  Exists (reads key) evs →
  let s := run evs init in
  fetch_calls key s ≤ 1 ∧
  ((∀ t tk, tasks s !! t = Some tk → task_key tk = key →
      aborted tk = true ∨ started tk = true) →
   fetch_calls key s = 1) ∧
  (∃ t tk, tasks s !! t = Some tk ∧ task_key tk = key ∧ aborted tk = false ∧
     ∀ t' tk', tasks s !! t' = Some tk' → task_key tk' = key →
       aborted tk' = false → t' = t) ∧
  (∀ s0 rq e, cache_get (getKey rq) (cache (preempt (getKey rq) rq false s0)) = Some e →
     tasks (startLoading rq false s0).1 = tasks (preempt (getKey rq) rq false s0)) ∧
  (∀ s0 t tk, tasks s0 !! t = Some tk → aborted tk = true → start_task t s0 = s0).
Proof.
  intros Hw Hex s.
  destruct (window_run key evs init Hw (window_inv_init key) (or_intror Hex))
    as [(HI & Hr & Hs & Hu & Hp) [e He]]. fold s in HI, Hr, Hs, Hu, Hp, He.
  pose proof (Hp e He) as Hst.
  destruct HI as [H1 H2].
  destruct (H2 key e He) as (t & tk & Ht & Hk & _ & _ & Hpe & _).
  destruct (Hpe Hst) as (_ & _ & [Hab Hres]).
  assert (∀ t' tk', tasks s !! t' = Some tk' → task_key tk' = key →
            aborted tk' = false → t' = t) as Huniq.
  { intros t' tk' Ht' Hk' Hab'.
    eapply (referenced_unique key s); try done; split; eauto. }
  assert (started_count key s ≤ 1) as Hle.
  { unfold started_count. apply count_le_1.
    intros i j x y Hi Hj [Hkx Hsx] [Hky Hsy].
    rewrite (Huniq i x), (Huniq j y); try done.
    - destruct (H1 j y Hj) as (_ & Hc & _). destruct (aborted y); [|done].
      rewrite Hc in Hsy; done.
    - destruct (H1 i x Hi) as (_ & Hc & _). destruct (aborted x); [|done].
      rewrite Hc in Hsx; done. }
  unfold sync in Hs. split_and!.
  - lia.
  - intros Hran. destruct (Hran t tk Ht Hk) as [?|Hstart]; [congruence|].
    assert (1 ≤ started_count key s); [|lia].
    unfold started_count. by eapply count_ge_1.
  - eauto 10.
  - intros s0 rq e0 He0. rewrite startLoading_cases. simpl. by rewrite He0.
  - intros s0 t0 tk0 Ht0 Hab0. unfold start_task. by rewrite Ht0, Hab0.
Qed.

(** ** C3 *)

Lemma settled_entry_kept key e s ev :
  Inv s → dedup_event key s ev →
  cache_get key (cache s) = Some e → status e ≠ Pending →
  cache_get key (cache (step s ev)) = Some e.
Proof.
  intros HI Hev He Hst.
  assert (∀ rq, cache_get key (cache (startLoading rq false s).1) = Some e) as Hsl.
  { intros rq. destruct (decide (getKey rq = key)) as [<-|Hne].
    { by rewrite (startLoading_settled rq s e). }
    destruct (startLoading_read_cases rq s HI)
      as [(e0 & He0 & ->)|[(Hnone & ->)|(e0 & t & tk & _ & _ & _ & _ & _ & _ & _ & _ & ->)]].
    - done.
    - simpl. by rewrite cache_get_set_ne.
    - simpl. rewrite cache_get_set_ne by done. by rewrite cache_get_delete_ne. }
  destruct ev; cbn [step]; simpl in Hev.
  - rewrite read_state. apply Hsl.
  - rewrite preload_state. apply Hsl.
  - destruct (invalidate_cases rq s)
      as [(_ & e0 & _ & _ & -> & _)|(_ & _ & -> & _)].
    + by rewrite cache_get_set_ne.
    + by rewrite cache_get_delete_ne.
  - done.
  - done.
  - done.
  - unfold start_task. destruct (tasks s !! t) as [tk|]; [|done].
    destruct (aborted tk); [done|]. by destruct (started tk).
  - unfold settle_task. destruct (tasks s !! t) as [tk|] eqn:Ht; [|done].
    destruct (started tk && _); [|done]. simpl.
    destruct (cache_get (task_key tk) (cache s)); [|done]. simpl.
    rewrite cache_get_set_ne; [done|]. by apply Hev.
Qed.

Lemma settled_entry_kept_run key e evs s :
  Inv s → dedup_window key evs s →
  cache_get key (cache s) = Some e → status e ≠ Pending →
  cache_get key (cache (run evs s)) = Some e.
Proof.
  revert s. induction evs as [|ev evs IH]; intros s HI Hw He Hst; [done|].
  destruct Hw as [Hev Hw]. simpl. apply IH; try done.
  - by apply Inv_step.
  - by apply settled_entry_kept.
Qed.

(** C3: a Resolved entry with subscribers and no [next] is invalidated.
    The entry keeps its status and value and gets the refresh attempt as
    [next], and the attempt is in the queue.  As long as no other
    attempt of the fingerprint settles and the fingerprint is not
    invalidated again, every [read] of the fingerprint returns the value
    from before the refresh and changes nothing; once the refresh attempt, started and not yet settled,
    settles, [read] returns the new value (or throws the wrapped error
    when the refresh failed). *)
Theorem stale_while_revalidate
  (evs window : list Event) (rq : Request) (e : CacheStatus) :
  let s := run evs init in
  let key := getKey rq in
  cache_get key (cache s) = Some e →
  status e = Resolved →
  next e = None →
  0 < listenerCount key s →
  let t := length (tasks s) in
  let s1 := invalidate rq s in
  dedup_window key window s1 →
  let s2 := run window s1 in
  cache_get key (cache s1) =
    Some {| status := Resolved; value := value e; next := Some t; args := rq |} ∧
  (∃ tk, tasks s2 !! t = Some tk ∧ task_key tk = key ∧ meta tk = rq) ∧
  (∀ rq', getKey rq' = key → read rq' s2 = (s2, Return (value e))) ∧
  (∀ tk o rq',
     tasks s2 !! t = Some tk → started tk = true → result tk = None →
     getKey rq' = key →
     (read rq' (settle_task t o s2)).2 =
       match o with
       | Fulfilled data => Return (VData data)
       | Failed err => Throw (VError (UseAsyncError err))
       end).
Proof.
  intros s key He Hst Hnx Hl t s1 Hw s2.
  set (e1 := {| status := Resolved; value := value e; next := Some t; args := rq |}).
  assert (Inv s) as HI by apply Inv_run, Inv_init.
  assert (cache_get key (cache s1) = Some e1 ∧
          ∃ tk, tasks s1 !! t = Some tk ∧ task_key tk = key ∧ meta tk = rq)
    as [He1 Ht1].
  { destruct (invalidate_cases rq s) as [(_ & e0 & He0 & Hts & Hc & _)|[Hn _]].
    - fold key in He0, Hts, Hc. simplify_eq. subst s1. rewrite Hc, Hts. split.
      + rewrite cache_get_set_eq. subst e1. by rewrite Hst.
      + eexists. split; [apply list_lookup_middle; done|done].
    - exfalso. apply Hn. split; [done|]. exists e. rewrite Hst. done. }
  assert (cache_get key (cache s2) = Some e1) as He2.
  { apply settled_entry_kept_run; try done. by apply Inv_invalidate. }
  assert (∃ tk, tasks s2 !! t = Some tk ∧ task_key tk = key ∧ meta tk = rq) as Ht2.
  { destruct Ht1 as (tk1 & Htk1 & Hk1 & Hm1).
    destruct (run_evolves window s1 t tk1 Htk1) as (tk' & Htk' & Hev).
    exists tk'. split; [done|]. destruct Hev as (-> & -> & _). done. }
  split; [done|]. split; [done|]. split.
  - intros rq' Hk. unfold read. subst key. rewrite <- Hk in He2.
    by rewrite (startLoading_settled rq' s2 e1).
  - intros tk o rq' Htk Hs Hres Hk. destruct Ht2 as (tk2 & Htk2 & Hkey & _).
    assert (tk2 = tk) as -> by congruence.
    assert (cache_get (getKey rq') (cache (settle_task t o s2)) =
      Some {| status := settled_status o; value := settled_value o;
              next := None; args := args e1 |}) as Hset.
    { unfold settle_task. rewrite Htk, Hs, Hres. simpl. rewrite Hkey, Hk. fold key.
      rewrite He2. simpl. by rewrite cache_get_set_eq. }
    unfold read. rewrite (startLoading_settled rq' _ _ Hset) by (by destruct o).
    by destruct o.
Qed.

(** ** JSON.stringify tells apart what JSON tells apart *)

Lemma app_cons (a : ascii) (s r : string) : String a s ++ r = String a (s ++ r).
Proof. done. Qed.

Lemma app_nil (r : string) : "" ++ r = r.
Proof. done. Qed.

Lemma app_assoc (s1 s2 s3 : string) : (s1 ++ s2) ++ s3 = s1 ++ (s2 ++ s3).
Proof. induction s1 as [|a s1 IH]; [done|]. by rewrite !app_cons, IH. Qed.

Lemma unquote_quote_char c r : unquote_char (quote_char c ++ r) = Some (c, r).
Proof.
  destruct c as [[] [] [] [] [] [] [] []]; reflexivity.
Qed.

Lemma quote_char_head c : ∃ a rest, quote_char c = String a rest ∧ a ≠ dquote.
Proof.
  destruct c as [[] [] [] [] [] [] [] []]; eexists _, _; (split; [reflexivity|done]).
Qed.

Lemma quote_char_inj c c' r r' :
  quote_char c ++ r = quote_char c' ++ r' → c = c' ∧ r = r'.
Proof.
  intros H. apply (f_equal unquote_char) in H.
  rewrite !unquote_quote_char in H. by simplify_eq.
Qed.

Lemma quote_body_inj s s' r r' :
  quote_body s ++ String dquote r = quote_body s' ++ String dquote r' →
  s = s' ∧ r = r'.
Proof.
  revert s'. induction s as [|c s IH]; intros [|c' s'] H; simpl in H.
  - rewrite !app_nil in H. by simplify_eq.
  - destruct (quote_char_head c') as (a & rest & Hq & Ha).
    rewrite app_nil, Hq, !app_cons in H. by simplify_eq.
  - destruct (quote_char_head c) as (a & rest & Hq & Ha).
    rewrite app_nil, Hq, !app_cons in H. by simplify_eq.
  - rewrite !app_assoc in H. apply quote_char_inj in H as [-> H].
    apply IH in H as [-> ->]. done.
Qed.

Lemma quote_inj s s' r r' : quote s ++ r = quote s' ++ r' → s = s' ∧ r = r'.
Proof.
  unfold quote. rewrite !app_cons, !app_assoc, !app_cons, !app_nil.
  intros [= H]. by apply quote_body_inj.
Qed.

Lemma bracket_delimits a a' r r' :
  str_forall no_bracket a = true → str_forall no_bracket a' = true →
  a ++ String "]" r = a' ++ String "]" r' → a = a' ∧ r = r'.
Proof.
  revert a'. induction a as [|c a IH]; intros [|c' a'] Ha Ha' H;
    rewrite ?app_nil, ?app_cons in H; simpl in Ha, Ha'.
  - by simplify_eq.
  - by simplify_eq.
  - by simplify_eq.
  - apply andb_true_iff in Ha as [_ Ha]. apply andb_true_iff in Ha' as [_ Ha'].
    injection H as -> H. by destruct (IH a' Ha Ha' H) as [-> ->].
Qed.

Lemma number_chars_no_bracket s :
  str_forall is_number_char s = true → str_forall no_bracket s = true.
Proof.
  induction s as [|a s IH]; simpl; [done|].
  intros [Ha Hs]%andb_true_iff. rewrite (IH Hs), andb_true_r.
  destruct a as [[] [] [] [] [] [] [] []]; done.
Qed.

Section Host.

(** What is assumed of the host.  [Number::toString] prints two finite
    numbers alike exactly when they are equal or are [0] and [-0], and
    what it prints is a number text. *)
Hypothesis numberToString_same : ∀ n n',
  is_finite n = true → is_finite n' = true →
  (numberToString n = numberToString n' ↔ toJson (JNum n) = toJson (JNum n')).
Hypothesis numberToString_text : ∀ n,
  is_finite n = true →
  numberToString n ≠ "" ∧ str_forall is_number_char (numberToString n) = true.

Lemma toJson_ok v : json_ok (toJson v).
Proof. by destruct v as [s|[]|]. Qed.

Lemma numberToString_head n :
  is_finite n = true →
  ∃ a rest, numberToString n = String a rest ∧ is_number_char a = true.
Proof.
  intros Hn. destruct (numberToString_text n Hn) as [Hne H].
  destruct (numberToString n) as [|a rest]; [done|].
  simpl in H. apply andb_true_iff in H as [Ha _]. eauto.
Qed.

Lemma stringify_value_json v : stringify_value v = stringify_json (toJson v).
Proof.
  destruct v as [s|[]|]; simpl; try done.
  by apply numberToString_same.
Qed.

Lemma stringify_json_inj j j' r r' :
  json_ok j → json_ok j' →
  stringify_json j ++ String "]" r = stringify_json j' ++ String "]" r' →
  j = j' ∧ r = r'.
Proof.
  intros Hj Hj' H.
  assert (∀ n, is_finite n = true →
            str_forall no_bracket (numberToString n) = true) as Hnb.
  { intros n Hn. by apply number_chars_no_bracket, numberToString_text. }
  assert (∀ s n r0 r1, is_finite n = true →
            quote s ++ r0 ≠ numberToString n ++ r1) as Hqn.
  { intros s n r0 r1 Hn. destruct (numberToString_head n Hn) as (a & rest & -> & Ha).
    unfold quote. rewrite !app_cons. intros [= <- _]. done. }
  destruct j as [s|n|], j' as [s'|n'|]; simpl in H.
  - apply quote_inj in H as [-> [= ->]]. done.
  - destruct Hj' as [Hn' _]. by apply Hqn in H.
  - unfold quote in H. rewrite !app_cons in H. by simplify_eq.
  - destruct Hj as [Hn _]. symmetry in H. by apply Hqn in H.
  - destruct Hj as [Hn Hjn], Hj' as [Hn' Hjn'].
    apply bracket_delimits in H as [H ->]; [|by apply Hnb..].
    apply numberToString_same in H; [|done..]. split; [|done]. congruence.
  - destruct Hj as [Hn _].
    apply bracket_delimits in H as [H _]; [|by auto..].
    destruct (numberToString_head n Hn) as (a & rest & Hz & Ha).
    rewrite Hz in H. injection H as -> _. done.
  - unfold quote in H. rewrite !app_cons in H. by simplify_eq.
  - destruct Hj' as [Hn' _].
    apply bracket_delimits in H as [H _]; [|by auto..].
    destruct (numberToString_head n' Hn') as (a & rest & Hz & Ha).
    rewrite Hz in H. injection H as <- _. done.
  - rewrite !app_cons, !app_nil in H. by simplify_eq.
Qed.

Lemma cons_inj (a : ascii) (s s' : string) : String a s = String a s' → s = s'.
Proof. by intros [= ->]. Qed.

Lemma entry_shape (q v r : string) :
  ("[" ++ q ++ "," ++ v ++ "]") ++ r = String "[" (q ++ String "," (v ++ String "]" r)).
Proof. by repeat rewrite ?app_assoc, ?app_cons, ?app_nil. Qed.

Lemma stringify_entry_inj kv kv' r r' :
  stringify_entry kv ++ r = stringify_entry kv' ++ r' →
  json_entry kv = json_entry kv' ∧ r = r'.
Proof.
  destruct kv as [k v], kv' as [k' v']. unfold stringify_entry, json_entry. simpl.
  rewrite !stringify_value_json.
  rewrite !entry_shape.
  intros H%cons_inj. apply quote_inj in H as [-> H%cons_inj].
  apply stringify_json_inj in H as [-> ->]; [done|apply toJson_ok..].
Qed.

Lemma stringify_more_cons kv l :
  stringify_more (kv :: l) = String "," (stringify_entry kv ++ stringify_more l).
Proof. done. Qed.

Lemma JSON_stringify_cons kv l :
  JSON_stringify (kv :: l) = String "[" (stringify_entry kv ++ stringify_more l).
Proof. done. Qed.

Lemma stringify_entry_head kv r :
  ∃ rest, stringify_entry kv ++ r = String "[" rest.
Proof. unfold stringify_entry. rewrite entry_shape. eauto. Qed.

Lemma stringify_more_inj l l' :
  stringify_more l = stringify_more l' → json_entry <$> l = json_entry <$> l'.
Proof.
  revert l'. induction l as [|kv l IH]; intros [|kv' l'] H.
  - done.
  - rewrite stringify_more_cons in H. discriminate H.
  - rewrite stringify_more_cons in H. discriminate H.
  - rewrite !stringify_more_cons in H. apply cons_inj in H.
    apply stringify_entry_inj in H as [Hkv H]. csimpl. by rewrite Hkv, (IH l' H).
Qed.

Lemma JSON_stringify_inj l l' :
  JSON_stringify l = JSON_stringify l' → json_entry <$> l = json_entry <$> l'.
Proof.
  destruct l as [|kv l], l' as [|kv' l']; intros H.
  - done.
  - rewrite JSON_stringify_cons in H.
    destruct (stringify_entry_head kv' (stringify_more l')) as [rest Hr].
    rewrite Hr in H. discriminate H.
  - rewrite JSON_stringify_cons in H.
    destruct (stringify_entry_head kv (stringify_more l)) as [rest Hr].
    rewrite Hr in H. discriminate H.
  - rewrite !JSON_stringify_cons in H. apply cons_inj in H.
    apply stringify_entry_inj in H as [Hkv H]. csimpl.
    by rewrite Hkv, (stringify_more_inj l l' H).
Qed.

Lemma stringify_entry_json kv kv' :
  json_entry kv = json_entry kv' → stringify_entry kv = stringify_entry kv'.
Proof.
  destruct kv as [k v], kv' as [k' v']. unfold json_entry, stringify_entry. simpl.
  rewrite !stringify_value_json. by intros [= -> ->].
Qed.

Lemma stringify_more_json l l' :
  json_entry <$> l = json_entry <$> l' → stringify_more l = stringify_more l'.
Proof.
  revert l'. induction l as [|kv l IH]; intros [|kv' l'] H; try done.
  rewrite !fmap_cons in H. apply (inj2 cons) in H as [Hkv H].
  rewrite !stringify_more_cons. by rewrite (stringify_entry_json _ _ Hkv), (IH l' H).
Qed.

Lemma JSON_stringify_json l l' :
  json_entry <$> l = json_entry <$> l' → JSON_stringify l = JSON_stringify l'.
Proof.
  destruct l as [|kv l], l' as [|kv' l']; intros H; try done.
  rewrite !fmap_cons in H. apply (inj2 cons) in H as [Hkv H].
  rewrite !JSON_stringify_cons.
  by rewrite (stringify_entry_json _ _ Hkv), (stringify_more_json l l' H).
Qed.

(** ** C5 *)

Lemma sort_insert_perm {V} (kv : string * V) l : sort_insert kv l ≡ₚ kv :: l.
Proof.
  induction l as [|kv' l IH]; simpl; [done|].
  destruct (localeCompare _ _); try done.
  rewrite IH. apply Permutation_swap.
Qed.

Lemma sort_perm {V} (l : list (string * V)) : sort l ≡ₚ l.
Proof.
  induction l as [|kv l IH]; simpl; [done|].
  by rewrite sort_insert_perm, IH.
Qed.

Lemma sort_fmap {V W} (g : string * V → string * W) :
  (∀ kv, (g kv).1 = kv.1) → ∀ l, sort (g <$> l) = g <$> sort l.
Proof.
  intros Hg.
  assert (∀ kv l, sort_insert (g kv) (g <$> l) = g <$> sort_insert kv l) as Hins.
  { intros kv l. induction l as [|kv' l IH]; csimpl; [done|].
    rewrite !Hg. destruct (localeCompare _ _); csimpl; try done. by rewrite IH. }
  induction l as [|kv l IH]; csimpl; [done|]. by rewrite IH, Hins.
Qed.

Lemma omit_NoDup name (rq : Request) : NoDup rq.*1 → NoDup (omit name rq).*1.
Proof.
  unfold omit. induction rq as [|[k v] rq IH]; [done|].
  rewrite fmap_cons, filter_cons. simpl.
  intros [Hk Hnd]%NoDup_cons.
  destruct (decide (k ≠ name)); [|by apply IH]. rewrite fmap_cons. simpl.
  apply NoDup_cons. split; [|by apply IH].
  intros Hin. apply Hk. apply list_elem_of_fmap in Hin as (kv & -> & Hin).
  apply list_elem_of_filter in Hin as [_ Hin]. apply list_elem_of_fmap. eauto.
Qed.

Lemma NoDup_keys_unique {V} (l : list (string * V)) kv kv' :
  NoDup l.*1 → kv ∈ l → kv' ∈ l → kv.1 = kv'.1 → kv = kv'.
Proof.
  induction l as [|x l IH]; csimpl; intros Hnd Hin Hin' Hk.
  - by apply not_elem_of_nil in Hin.
  - apply NoDup_cons in Hnd as [Hx Hnd].
    apply elem_of_cons in Hin as [->|Hin]; apply elem_of_cons in Hin' as [->|Hin'].
    + done.
    + destruct Hx. rewrite Hk. apply list_elem_of_fmap. eauto.
    + destruct Hx. rewrite <- Hk. apply list_elem_of_fmap. eauto.
    + by apply IH.
Qed.

(** A collation is a total preorder: names may collate equal. *)
Hypothesis localeCompare_antisym :
  ∀ a b, localeCompare b a = CompOpp (localeCompare a b).
Hypothesis localeCompare_trans :
  ∀ a b c, localeCompare a b ≠ Gt → localeCompare b c ≠ Gt → localeCompare a c ≠ Gt.

Lemma sort_insert_sorted {V} (kv : string * V) l :
  Sorted key_le l → Sorted key_le (sort_insert kv l).
Proof.
  induction 1 as [|kv' l Hl IH Hhd]; simpl; [by repeat constructor|].
  destruct (localeCompare kv.1 kv'.1) eqn:Hc.
  - repeat constructor; try done. unfold key_le. by rewrite Hc.
  - repeat constructor; try done. unfold key_le. by rewrite Hc.
  - constructor; [done|].
    assert (key_le kv' kv) as Hle.
    { unfold key_le. by rewrite localeCompare_antisym, Hc. }
    destruct Hhd as [|kv'' l Hle']; simpl; [by constructor|].
    destruct (localeCompare kv.1 kv''.1); by constructor.
Qed.

Lemma sort_sorted {V} (l : list (string * V)) : Sorted key_le (sort l).
Proof.
  induction l as [|kv l IH]; simpl; [constructor|]. by apply sort_insert_sorted.
Qed.

Lemma sort_unique {V} (l1 l2 : list (string * V)) :
  NoDup l1.*1 →
  (∀ a b, a ∈ l1.*1 → b ∈ l1.*1 → localeCompare a b = Eq → a = b) →
  l1 ≡ₚ l2 → sort l1 = sort l2.
Proof.
  intros Hnd Htie Hp.
  assert (Transitive (@key_le V)) as Htrans.
  { intros x y z. unfold key_le. apply localeCompare_trans. }
  apply (Sorted_unique_strong key_le); [|apply sort_sorted..|by rewrite !sort_perm].
  intros x1 x2 Hx1 Hx2 H12 H21. rewrite sort_perm in Hx1.
  rewrite sort_perm, <- Hp in Hx2.
  apply (NoDup_keys_unique l1); try done.
  apply Htie; [apply list_elem_of_fmap; eauto..|].
  unfold key_le in *. rewrite localeCompare_antisym in H21.
  destruct (localeCompare x1.1 x2.1); done.
Qed.

(** C5, as the code has it.  The fingerprint of a request does not
    depend on whether it has a [priority] or which, and two requests of
    the same fingerprint have the same other fields as JSON encodes
    them: strings as themselves, finite numbers up to the sign of zero,
    [undefined] and the non-finite numbers all as [null].  For a request
    no two of whose field names collate equal, the fingerprint does not
    depend on the order of the fields either, and the requests of the
    same fingerprint are exactly those with the same other fields as
    JSON encodes them. *)
Theorem getKey_fingerprint (r1 r2 : Request) :
  (omit "priority" r1 = omit "priority" r2 → getKey r1 = getKey r2) ∧
  (getKey r1 = getKey r2 → json_fields r1 ≡ₚ json_fields r2) ∧
  (NoDup r1.*1 → told_apart r1 →
     (r1 ≡ₚ r2 → getKey r1 = getKey r2) ∧
     (omit "priority" r1 ≡ₚ omit "priority" r2 → getKey r1 = getKey r2) ∧
     (getKey r1 = getKey r2 ↔ json_fields r1 ≡ₚ json_fields r2)).
Proof.
  assert (getKey r1 = getKey r2 → json_fields r1 ≡ₚ json_fields r2) as Hsep.
  { unfold getKey, json_fields. intros H%JSON_stringify_inj.
    rewrite <- (sort_perm (omit "priority" r1)), <- (sort_perm (omit "priority" r2)).
    by rewrite H. }
  split_and!; [unfold getKey; by intros ->|done|].
  intros Hnd Htie.
  assert (json_fields r1 ≡ₚ json_fields r2 → getKey r1 = getKey r2) as Hjson.
  { unfold getKey, json_fields. intros Hp. apply JSON_stringify_json.
    rewrite <- !(sort_fmap json_entry) by done.
    assert ((json_entry <$> omit "priority" r1).*1 = (omit "priority" r1).*1) as Hfst.
    { rewrite <- list_fmap_compose. done. }
    apply sort_unique; [| |done]; rewrite Hfst; [by apply omit_NoDup|done]. }
  assert (omit "priority" r1 ≡ₚ omit "priority" r2 → getKey r1 = getKey r2) as Homit.
  { intros Hp. apply Hjson. unfold json_fields. by rewrite Hp. }
  split_and!; try done.
  intros Hp. apply Homit. unfold omit. by rewrite Hp.
Qed.

End Host.

(** ** What every operation does to the cache *)

Lemma abort_cache t s : cache (abort t s).1 = cache s.
Proof.
  unfold abort. destruct (tasks s !! t) as [tk|]; [|done]. by destruct (started tk).
Qed.

Section cache_induction.
Variable Q : list (string * CacheStatus) → Prop.
Hypothesis Q_set : ∀ k e c, Q c → admissible c e → Q (cache_set k e c).
Hypothesis Q_delete : ∀ k c, Q c → Q (cache_delete k c).

Lemma preempt_cache_ind key rq isRefetch s :
  Q (cache s) → Q (cache (preempt key rq isRefetch s)).
Proof.
  intros HQ. unfold preempt.
  destruct (cache_get key (cache s)) as [e|] eqn:He; [|done].
  destruct (num_ltb _ _); [|done].
  assert (∀ s0 t, cache s0 = cache s →
    Q (cache (let '(s2, c) := abort t s0 in
              if c then with_cache (cache_delete key (cache s2)) s2 else s2))) as Hab.
  { intros s0 t Hc. pose proof (abort_cache t s0) as Hc'.
    destruct (abort t s0) as [s2 []]; simpl in *.
    - rewrite Hc', Hc. by apply Q_delete.
    - by rewrite Hc', Hc. }
  destruct (if isRefetch then next e else None) as [n|].
  - pose proof (abort_cache n s) as Hc. destruct (abort n s) as [s1 c1].
    simpl in Hc. destruct c1.
    + simpl. rewrite Hc. apply Q_set; [done|]. right. right. by exists key, e.
    + destruct (status e), (value e) as [t| |]; rewrite ?Hc; try done. by apply Hab.
  - destruct (status e), (value e) as [t| |]; try done. by apply Hab.
Qed.

Lemma startLoading_cache_ind rq isRefetch s :
  Q (cache s) → Q (cache (startLoading rq isRefetch s).1).
Proof.
  intros HQ. apply (preempt_cache_ind (getKey rq) rq isRefetch) in HQ.
  rewrite startLoading_cases. simpl.
  destruct (cache_get _ _) as [e|] eqn:He; simpl.
  - destruct (isRefetch && _); simpl; [|done].
    apply Q_set; [done|]. right. right. by exists (getKey rq), e.
  - apply Q_set; [done|]. left. by eexists.
Qed.

Lemma invalidate_cache_ind rq s : Q (cache s) → Q (cache (invalidate rq s)).
Proof.
  intros HQ. unfold invalidate. destruct (refreshes _ _).
  - by apply startLoading_cache_ind.
  - simpl. by apply Q_delete.
Qed.

Lemma invalidateAll_cache_ind onlyRejected s :
  Q (cache s) → Q (cache (invalidateAll onlyRejected s)).
Proof.
  unfold invalidateAll. generalize (map snd (cache s)). intros l.
  revert s. induction l as [|e l IH]; intros s HQ; simpl; [done|].
  apply IH. destruct (_ || _); [by apply invalidate_cache_ind|done].
Qed.

Lemma step_cache_ind s ev : Q (cache s) → Q (cache (step s ev)).
Proof.
  intros HQ. destruct ev; cbn [step].
  - rewrite read_state. by apply startLoading_cache_ind.
  - rewrite preload_state. by apply startLoading_cache_ind.
  - by apply invalidate_cache_ind.
  - by apply invalidateAll_cache_ind.
  - done.
  - done.
  - unfold start_task. destruct (tasks s !! t) as [tk|]; [|done].
    destruct (aborted tk); [done|]. by destruct (started tk).
  - unfold settle_task. destruct (tasks s !! t) as [tk|]; [|done].
    destruct (started tk && _); [|done]. simpl.
    destruct (cache_get (task_key tk) (cache s)); [|done]. simpl.
    apply Q_set; [done|]. right. left. by eexists.
Qed.

Lemma run_cache_ind evs s : Q (cache s) → Q (cache (run evs s)).
Proof.
  revert s. induction evs as [|ev evs IH]; intros s HQ; simpl; [done|].
  by apply IH, step_cache_ind.
Qed.
End cache_induction.

Lemma cache_get_set_Some key key' e x c :
  cache_get key' (cache_set key e c) = Some x →
  (key' = key ∧ x = e) ∨ cache_get key' c = Some x.
Proof.
  intros H. destruct (decide (key = key')) as [<-|Hne].
  - rewrite cache_get_set_eq in H. left. by simplify_eq.
  - rewrite cache_get_set_ne in H by done. by right.
Qed.

Lemma cache_get_elem key e c : cache_get key c = Some e → (key, e) ∈ c.
Proof.
  induction c as [|[k x] c IH]; simpl; [done|].
  destruct (decide (k = key)) as [->|Hne].
  - intros [= ->]. left.
  - intros H. right. by apply IH.
Qed.

Lemma cache_get_NoDup key e c :
  NoDup c.*1 → (key, e) ∈ c → cache_get key c = Some e.
Proof.
  induction c as [|[k x] c IH]; [by intros _ ?%not_elem_of_nil|].
  rewrite fmap_cons. intros [Hk Hnd]%NoDup_cons [Heq|Hin]%elem_of_cons; simpl in *.
  - simplify_eq. by rewrite decide_True.
  - destruct (decide (k = key)) as [->|Hne]; [|by apply IH].
    destruct Hk. apply list_elem_of_fmap. by exists (key, e).
Qed.

Lemma cache_set_keys key e c k :
  k ∈ (cache_set key e c).*1 → k = key ∨ k ∈ c.*1.
Proof.
  induction c as [|[k0 x] c IH]; simpl.
  - intros ?%list_elem_of_singleton. by left.
  - destruct (decide (k0 = key)) as [->|Hne]; rewrite ?fmap_cons; csimpl;
      intros [->|Hin]%elem_of_cons.
    + by left.
    + right. by right.
    + right. by left.
    + destruct (IH Hin) as [?|?]; [by left|]. right. by right.
Qed.

Lemma cache_set_NoDup key e c : NoDup c.*1 → NoDup (cache_set key e c).*1.
Proof.
  induction c as [|[k0 x] c IH].
  - intros _. apply NoDup_singleton.
  - rewrite fmap_cons. intros [Hk Hnd]%NoDup_cons. simpl in Hk.
    cbn [cache_set].
    destruct (decide (k0 = key)) as [->|Hne]; rewrite fmap_cons; simpl;
      apply NoDup_cons; split; try done; [|by apply IH].
    intros [?|?]%cache_set_keys; done.
Qed.

Lemma cache_delete_NoDup key c : NoDup c.*1 → NoDup (cache_delete key c).*1.
Proof.
  unfold cache_delete. induction c as [|[k x] c IH]; [done|].
  rewrite fmap_cons, filter_cons. simpl. intros [Hk Hnd]%NoDup_cons.
  destruct (decide (k ≠ key)); [|by apply IH]. rewrite fmap_cons. simpl.
  apply NoDup_cons. split; [|by apply IH].
  intros Hin. apply Hk. apply list_elem_of_fmap in Hin as (kv & -> & Hin).
  apply list_elem_of_filter in Hin as [_ Hin]. apply list_elem_of_fmap. eauto.
Qed.

(** The cache never holds two entries of one fingerprint. *)
Lemma run_NoDup evs : NoDup (cache (run evs init)).*1.
Proof.
  apply (run_cache_ind (λ c, NoDup c.*1)).
  - intros k e c Hc _. by apply cache_set_NoDup.
  - intros k c Hc. by apply cache_delete_NoDup.
  - apply NoDup_nil_2.
Qed.

Lemma run_typed evs key e :
  cache_get key (cache (run evs init)) = Some e → entry_typed e.
Proof.
  revert key e.
  apply (run_cache_ind (λ c, ∀ key e, cache_get key c = Some e → entry_typed e)).
  - intros k e c Hc Hadm key x [[_ ->]|Hx]%cache_get_set_Some; [|eauto].
    unfold entry_typed.
    destruct Hadm as [(t & -> & ->)|[(o & -> & ->)|(k' & x & Hx & -> & ->)]].
    + done.
    + by destruct o.
    + by apply (Hc k' x).
  - intros k c Hc key e [_ He]%cache_get_delete_Some. eauto.
  - done.
Qed.

(** In a reachable state every entry that the cache lists is the entry
    of its own place, and its place is the fingerprint of its [args]. *)
Lemma run_entries evs key e :
  (key, e) ∈ cache (run evs init) →
  cache_get key (cache (run evs init)) = Some e ∧ getKey (args e) = key.
Proof.
  intros Hin. pose proof (cache_get_NoDup key e _ (run_NoDup evs) Hin) as He.
  split; [done|].
  destruct (Inv_run evs init Inv_init) as [H1 H2].
  destruct (H2 key e He) as (t & tk & Ht & Hk & Hm & _).
  destruct (H1 t tk Ht) as (Hkey & _). congruence.
Qed.


(** ** What is emitted *)

Lemma abort_frame t s :
  emitted (abort t s).1 = emitted s ∧ listeners (abort t s).1 = listeners s.
Proof.
  unfold abort. destruct (tasks s !! t) as [tk|]; [|done]. by destruct (started tk).
Qed.

Lemma preempt_frame key rq isRefetch s :
  emitted (preempt key rq isRefetch s) = emitted s ∧
  listeners (preempt key rq isRefetch s) = listeners s.
Proof.
  unfold preempt. destruct (cache_get key (cache s)) as [e|]; [|done].
  destruct (num_ltb _ _); [|done].
  assert (∀ s0 t,
    emitted (let '(s2, c) := abort t s0 in
             if c then with_cache (cache_delete key (cache s2)) s2 else s2)
      = emitted s0 ∧
    listeners (let '(s2, c) := abort t s0 in
             if c then with_cache (cache_delete key (cache s2)) s2 else s2)
      = listeners s0) as Hab.
  { intros s0 t. pose proof (abort_frame t s0) as Hf.
    destruct (abort t s0) as [s2 []]; simpl in *; done. }
  destruct (if isRefetch then next e else None) as [n|].
  - pose proof (abort_frame n s) as [Hf Hl].
    destruct (abort n s) as [s1 c1]. simpl in Hf, Hl. destruct c1; [done|].
    destruct (status e), (value e) as [t| |]; try done.
    destruct (Hab s1 t) as [-> ->]. done.
  - destruct (status e), (value e) as [t| |]; done.
Qed.

Lemma startLoading_frame rq isRefetch s :
  emitted (startLoading rq isRefetch s).1 = emitted s ∧
  listeners (startLoading rq isRefetch s).1 = listeners s.
Proof.
  destruct (preempt_frame (getKey rq) rq isRefetch s) as [Hf Hl].
  rewrite startLoading_cases. simpl.
  destruct (cache_get _ _) as [e|]; simpl; [|done].
  by destruct (isRefetch && _).
Qed.

Lemma start_task_frame t s :
  emitted (start_task t s) = emitted s ∧ listeners (start_task t s) = listeners s ∧
  cache (start_task t s) = cache s.
Proof.
  unfold start_task. destruct (tasks s !! t) as [tk|]; [|done].
  destruct (aborted tk); [done|]. by destruct (started tk).
Qed.

Lemma JSON_stringify_head l : ∃ rest, JSON_stringify l = String "[" rest.
Proof. destruct l; [by eexists|]. rewrite JSON_stringify_cons. by eexists. Qed.

Lemma getKey_head rq : ∃ rest, getKey rq = String "[" rest.
Proof. apply JSON_stringify_head. Qed.

Lemma invalidate_emitted rq s :
  emitted (invalidate rq s) = emitted s ∨
  emitted (invalidate rq s) = (emitted s ++ notification (getKey rq))%list.
Proof.
  destruct (invalidate_cases rq s) as [(_ & _ & _ & _ & _ & ->)|(_ & _ & _ & ->)];
    [by left|by right].
Qed.

Lemma invalidateAll_emitted onlyRejected s :
  ∃ rqs, emitted (invalidateAll onlyRejected s) =
    (emitted s ++ concat ((notification ∘ getKey) <$> rqs))%list.
Proof.
  unfold invalidateAll. generalize (map snd (cache s)). intros l.
  revert s. induction l as [|e l IH]; intros s; simpl.
  - exists []. by rewrite app_nil_r.
  - destruct (_ || _); [|apply IH].
    destruct (IH (invalidate (args e) s)) as [rqs ->].
    destruct (invalidate_emitted (args e) s) as [->| ->]; [by exists rqs|].
    exists (args e :: rqs). by rewrite <- List.app_assoc.
Qed.

Lemma step_emitted s ev :
  Inv s →
  ∃ rqs, emitted (step s ev) =
    (emitted s ++ concat ((notification ∘ getKey) <$> rqs))%list.
Proof.
  intros HI. destruct ev; cbn [step].
  - rewrite read_state. destruct (startLoading_frame rq false s) as [-> _].
    exists []. by rewrite app_nil_r.
  - rewrite preload_state. destruct (startLoading_frame rq false s) as [-> _].
    exists []. by rewrite app_nil_r.
  - destruct (invalidate_emitted rq s) as [->| ->].
    + exists []. by rewrite app_nil_r.
    + by exists [rq].
  - apply invalidateAll_emitted.
  - exists []. by rewrite app_nil_r.
  - exists []. by rewrite app_nil_r.
  - destruct (start_task_frame t s) as [-> _]. exists []. by rewrite app_nil_r.
  - unfold settle_task. destruct (tasks s !! t) as [tk|] eqn:Ht;
      [|exists []; by rewrite app_nil_r].
    destruct (started tk && _); [|exists []; by rewrite app_nil_r]. simpl.
    destruct (cache_get (task_key tk) (cache s)); [|exists []; by rewrite app_nil_r].
    destruct HI as [H1 _]. destruct (H1 t tk Ht) as (Hk & _).
    exists [meta tk]. simpl. rewrite <- Hk. by rewrite <- List.app_assoc.
Qed.

(** X1: in every state a run reaches from the initial one, what has
    been emitted is a sequence of notifications, each the event of the
    fingerprint of some request followed at once by ["any"]; no
    fingerprint is ["any"]. *)
Theorem emitted_in_pairs (evs : list Event) :
  ∃ rqs, emitted (run evs init) = concat ((notification ∘ getKey) <$> rqs) ∧
    Forall (λ rq, getKey rq ≠ "any") rqs.
Proof.
  assert (∀ s, Inv s → ∃ rqs, emitted (run evs s) =
            (emitted s ++ concat ((notification ∘ getKey) <$> rqs))%list) as Hrun.
  { induction evs as [|ev evs IH]; intros s HI; simpl.
    - exists []. by rewrite app_nil_r.
    - destruct (IH (step s ev) (Inv_step s ev HI)) as [rqs2 ->].
      destruct (step_emitted s ev HI) as [rqs1 ->].
      exists (rqs1 ++ rqs2)%list. by rewrite fmap_app, concat_app, <- List.app_assoc. }
  destruct (Hrun init Inv_init) as [rqs Hrqs]. exists rqs. split; [done|].
  apply Forall_forall. intros rq _ Hany.
  destruct (getKey_head rq) as [rest Hrest]. rewrite Hrest in Hany. discriminate Hany.
Qed.

(** X2: the fingerprint of a request opens with a bracket and is never
    ["any"]: a listener on ["any"] is no subscriber of any fingerprint,
    and a listener on a request is one more subscriber of its
    fingerprint and of no other. *)
Theorem any_is_no_fingerprint (rq : Request) (callback : nat) (s : State) :
  getKey rq ≠ "any" ∧
  listenerCount (getKey rq) (on Any callback s) = listenerCount (getKey rq) s ∧
  listenerCount (getKey rq) (on (Of rq) callback s) = S (listenerCount (getKey rq) s) ∧
  listenerCount "any" (on (Of rq) callback s) = listenerCount "any" s.
Proof.
  assert (getKey rq ≠ "any") as Hne.
  { intros Hany. destruct (getKey_head rq) as [rest Hrest].
    rewrite Hrest in Hany. discriminate Hany. }
  split; [done|]. unfold listenerCount, on. simpl.
  rewrite !filter_app, !length_app.
  rewrite filter_cons_False, filter_cons_True, filter_cons_False by (simpl; congruence).
  simpl. lia.
Qed.

(** X3: reading, preloading, subscribing and the start of a task body
    emit nothing, and apart from [on] and [off] they leave the listeners
    as they are; so the deletion of a Pending entry by a request of
    higher priority notifies nobody. *)
Theorem silent_events_emit_nothing (s : State) (ev : Event) :
  silent ev →
  emitted (step s ev) = emitted s ∧
  match ev with
  | EOn _ _ | EOff _ _ => cache (step s ev) = cache s ∧ tasks (step s ev) = tasks s
  | _ => listeners (step s ev) = listeners s
  end.
Proof.
  intros Hs. destruct ev; simpl in Hs; try done; cbn [step].
  - rewrite read_state. by destruct (startLoading_frame rq false s) as [-> ->].
  - rewrite preload_state. by destruct (startLoading_frame rq false s) as [-> ->].
  - by destruct (start_task_frame t s) as (-> & -> & _).
Qed.

(** ** Reads, attempts and calls over a run *)

Lemma run_snoc evs ev s : run (evs ++ [ev]) s = step (run evs s) ev.
Proof. unfold run. by rewrite foldl_app. Qed.

(** X4: in every state a run reaches from the initial one, [read] and
    [preload] complete as the type [Cache] promises: they return data,
    or throw (await) the promise of an attempt, or throw a
    [UseAsyncError], which the error boundary keeps and renders with the
    fallback; the [Unreachable] branch and a type error never happen. *)
Theorem read_completion_is_typed (evs : list Event) (rq : Request) :
  completion_typed (read rq (run evs init)).2 ∧
  completion_typed (preload rq (run evs init)).2.
Proof.
  set (s := run evs init).
  destruct (startLoading_entry rq false s) as [e He].
  assert ((startLoading rq false s).2 = Some e) as Hst by done.
  assert (entry_typed e) as Hty.
  { apply (run_typed (evs ++ [ERead rq]) (getKey rq)).
    rewrite run_snoc. cbn [step]. by rewrite read_state. }
  unfold read, preload. destruct (startLoading rq false s) as [s' st].
  simpl in Hst. subst st. unfold entry_typed in Hty.
  destruct (status e), (value e) as [t|d|[err|err]]; done.
Qed.

Lemma sync_run key evs s : Inv s → sync key s → sync key (run evs s).
Proof.
  revert s. induction evs as [|ev evs IH]; intros s HI Hs; simpl; [done|].
  apply IH; [by apply Inv_step|by apply sync_step].
Qed.

(** X5: in every state a run reaches from the initial one, [fetchData]
    has been called with requests of a fingerprint exactly as many
    times as attempts of that fingerprint have started: once for each
    started attempt, never for a cancelled one, never outside an
    attempt. *)
Theorem fetch_calls_are_started_attempts (evs : list Event) (key : string) :
  fetch_calls key (run evs init) = started_count key (run evs init) ∧
  started_count key (run evs init) ≤
    length (filter (λ tk, task_key tk = key ∧ aborted tk = false)
              (tasks (run evs init))).
Proof.
  split; [by apply sync_run; [apply Inv_init|]|].
  destruct (Inv_run evs init Inv_init) as [H1 _].
  unfold started_count. generalize dependent (tasks (run evs init)).
  intros ts H1. induction ts as [|tk ts IH]; [done|].
  assert (task_ok tk) as (_ & Hc & _) by (by apply (H1 0)).
  assert (length (filter (λ tk, task_key tk = key ∧ started tk = true) ts) ≤
          length (filter (λ tk, task_key tk = key ∧ aborted tk = false) ts)) as Hle.
  { apply IH. intros t tk' Ht. by apply (H1 (S t)). }
  rewrite !filter_cons.
  destruct (decide (task_key tk = key ∧ started tk = true)) as [[Hk Hs]|Hn];
    destruct (decide (task_key tk = key ∧ aborted tk = false)) as [?|Hn'];
    simpl; try lia.
  destruct Hn'. split; [done|]. destruct (aborted tk); [|done].
  rewrite Hc in Hs; done.
Qed.

(** X6: in every state a run reaches from the initial one, the key of
    an attempt is the fingerprint of its request, no attempt is both
    cancelled and started, and an attempt whose fetch has settled was
    started and is not cancelled. *)
Theorem attempt_flags (evs : list Event) (t : nat) (tk : Task) :
  tasks (run evs init) !! t = Some tk →
  task_key tk = getKey (meta tk) ∧
  ¬ (aborted tk = true ∧ started tk = true) ∧
  (result tk ≠ None → started tk = true ∧ aborted tk = false).
Proof.
  intros Ht. destruct (Inv_run evs init Inv_init) as [H1 _].
  destruct (H1 t tk Ht) as (Hk & Hc & Hr). split_and!; [done| |].
  - intros [Hab Hs]. rewrite (Hc Hab) in Hs. done.
  - intros Hres. split; [by apply Hr|].
    destruct (aborted tk); [|done]. rewrite Hc in Hr; [|done].
    by specialize (Hr Hres).
Qed.

(** X7: attempts are never removed nor moved: whatever happens, an
    attempt keeps its place in the queue's record, its request and its
    key; a cancelled attempt stays cancelled, a started one stays
    started, and a cancelled attempt that has not started never changes
    again. *)
Theorem attempts_persist (evs : list Event) (s : State) (t : nat) (tk : Task) :
  tasks s !! t = Some tk →
  ∃ tk', tasks (run evs s) !! t = Some tk' ∧
    meta tk' = meta tk ∧ task_key tk' = task_key tk ∧
    (aborted tk = true → aborted tk' = true) ∧
    (started tk = true → started tk' = true) ∧
    (aborted tk = true → started tk = false → tk' = tk).
Proof. intros Ht. exact (run_evolves evs s t tk Ht). Qed.

(** X8: [abort] is idempotent: a second call returns what the first
    returned and changes nothing more; it answers [true] exactly when
    the attempt is then cancelled, and it never changes anything but
    the flag [aborted] of its own attempt. *)
Theorem abort_idempotent (t : nat) (s : State) :
  abort t (abort t s).1 = abort t s ∧
  ((abort t s).2 = true ↔
   ∃ tk, tasks (abort t s).1 !! t = Some tk ∧ aborted tk = true) ∧
  (∀ t', t' ≠ t → tasks (abort t s).1 !! t' = tasks s !! t') ∧
  cache (abort t s).1 = cache s.
Proof.
  unfold abort. destruct (tasks s !! t) as [tk|] eqn:Ht.
  - destruct (started tk) eqn:Hs; simpl.
    + rewrite Ht, Hs. split_and!; try done. split.
      * intros Hab. eauto.
      * intros (tk' & Htk' & Hab). congruence.
    + assert (t < length (tasks s)) as Hlt by (by eapply lookup_lt_Some).
      rewrite list_lookup_insert_eq by done. simpl.
      split_and!; try done.
      * unfold with_tasks. simpl. by rewrite list_insert_insert_eq.
      * split; [eauto|done].
      * intros t' Hne. by rewrite list_lookup_insert_ne.
  - simpl. rewrite Ht. split_and!; try done.
    split; [done|]. intros (tk & Htk & _). congruence.
Qed.

(** X9: a request that is not a refresh and finds an entry of its
    fingerprint changes nothing and gets that entry, unless the entry is
    Pending and the request has a strictly higher priority: a settled
    entry is served whatever the priority (also while it is refreshed),
    and a request of equal or lower priority joins the attempt in
    flight. *)
Theorem request_without_effect (rq : Request) (e : CacheStatus) (s : State) :
  cache_get (getKey rq) (cache s) = Some e →
  status e ≠ Pending ∨ num_ltb (priorityOr0 (args e)) (priorityOr0 rq) = false →
  startLoading rq false s = (s, Some e) ∧
  (read rq s).1 = s ∧ (preload rq s).1 = s.
Proof.
  intros He Hor.
  assert (startLoading rq false s = (s, Some e)) as Hsl.
  { destruct Hor as [Hst|Hlt]; [by apply startLoading_settled|].
    unfold startLoading.
    assert (preempt (getKey rq) rq false s = s) as ->.
    { unfold preempt. by rewrite He, Hlt. }
    rewrite He. simpl. by rewrite He. }
  rewrite read_state, preload_state, Hsl. done.
Qed.


(** ** invalidateAll *)

Lemma invalidate_other_key key rq s :
  getKey rq ≠ key →
  cache_get key (cache (invalidate rq s)) = cache_get key (cache s).
Proof.
  intros Hne. destruct (invalidate_cases rq s)
    as [(_ & e & _ & _ & -> & _)|(_ & _ & -> & _)].
  - by rewrite cache_get_set_ne.
  - by rewrite cache_get_delete_ne.
Qed.

Lemma invalidate_fold_other_key key onlyRejected l s :
  (∀ e, e ∈ l → negb onlyRejected || bool_decide (status e = Rejected) = true →
     getKey (args e) ≠ key) →
  cache_get key
    (cache (foldl (λ s' e, if negb onlyRejected || bool_decide (status e = Rejected)
                           then invalidate (args e) s' else s') s l))
  = cache_get key (cache s).
Proof.
  revert s. induction l as [|e l IH]; intros s Hl; simpl; [done|].
  rewrite IH by (intros e' He'; apply Hl; by right).
  destruct (_ || _) eqn:Hb; [|done].
  apply invalidate_other_key. apply Hl; [left|done].
Qed.

Lemma invalidateAll_keeps_unrejected (evs : list Event) (key : string)
  (e : CacheStatus) :
  cache_get key (cache (run evs init)) = Some e →
  status e ≠ Rejected →
  cache_get key (cache (invalidateAll true (run evs init))) = Some e.
Proof.
  intros He Hst. unfold invalidateAll. rewrite invalidate_fold_other_key; [done|].
  intros e' Hin Hb Hk. simpl in Hb. apply bool_decide_eq_true in Hb.
  apply list_elem_of_fmap in Hin as ([k' e''] & -> & Hin). simpl in *.
  destruct (run_entries evs k' e'' Hin) as [He' Hk'].
  assert (k' = key) as -> by congruence. congruence.
Qed.

(** X10: [invalidateAll(true)] touches the Rejected entries only: in
    every state a run reaches from the initial one, an entry that is
    Pending or Resolved is the same after the call, and an engine
    without Rejected entry keeps its whole cache. *)
Theorem invalidateAll_only_rejected (evs : list Event) (key : string)
  (e : CacheStatus) :
  cache_get key (cache (run evs init)) = Some e →
  status e ≠ Rejected →
  cache_get key (cache (invalidateAll true (run evs init))) = Some e ∧
  ((∀ k x, cache_get k (cache (run evs init)) = Some x → status x ≠ Rejected) →
   ∀ k, cache_get k (cache (invalidateAll true (run evs init))) =
        cache_get k (cache (run evs init))).
Proof.
  intros He Hst. split; [by apply invalidateAll_keeps_unrejected|].
  intros Hall k. unfold invalidateAll. apply invalidate_fold_other_key.
  intros e' Hin Hb. simpl in Hb. apply bool_decide_eq_true in Hb.
  apply list_elem_of_fmap in Hin as ([k' e''] & -> & Hin). simpl in *.
  destruct (run_entries evs k' e'' Hin) as [He' _].
  by destruct (Hall k' e'' He').
Qed.

Lemma invalidate_unsubscribed rq s :
  listeners s = [] →
  invalidate rq s =
    emit "any" (emit (getKey rq) (with_cache (cache_delete (getKey rq) (cache s)) s)).
Proof.
  intros Hl. unfold invalidate, refreshes, listenerCount. by rewrite Hl.
Qed.

Lemma invalidate_fold_unsubscribed l s :
  listeners s = [] →
  let s' := foldl (λ s' e, invalidate (args e) s') s l in
  listeners s' = [] ∧ tasks s' = tasks s ∧ fetched s' = fetched s ∧
  emitted s' = (emitted s ++ concat ((notification ∘ getKey ∘ args) <$> l))%list ∧
  (∀ ke, ke ∈ cache s' → ke ∈ cache s ∧ ∀ e, e ∈ l → getKey (args e) ≠ ke.1).
Proof.
  revert s. induction l as [|e l IH]; intros s Hl; simpl.
  - rewrite app_nil_r. split_and!; try done. intros ke Hke. split; [done|].
    by intros e ?%not_elem_of_nil.
  - rewrite (invalidate_unsubscribed (args e) s Hl).
    set (s1 := emit "any" (emit (getKey (args e))
                 (with_cache (cache_delete (getKey (args e)) (cache s)) s))).
    destruct (IH s1 Hl) as (Hl' & Hts & Hf & Hem & Hc).
    split_and!; try done.
    + rewrite Hem. simpl. by rewrite <- !List.app_assoc.
    + intros ke Hke. destruct (Hc ke Hke) as [Hin Hall]. simpl in Hin.
      apply list_elem_of_filter in Hin as [Hne Hin]. split; [done|].
      intros e' [->|He']%elem_of_cons; [congruence|by apply Hall].
Qed.

(** X11: with no listener at all, [invalidateAll()] in a state a run
    reaches from the initial one empties the cache, hands nothing to the
    queue, calls no fetch and emits one notification for every entry, in
    the order of the entries. *)
Theorem invalidateAll_unsubscribed (evs : list Event) :
  let s := run evs init in
  listeners s = [] →
  cache (invalidateAll false s) = [] ∧
  tasks (invalidateAll false s) = tasks s ∧
  fetched (invalidateAll false s) = fetched s ∧
  emitted (invalidateAll false s) =
    (emitted s ++ concat (notification <$> (cache s).*1))%list.
Proof.
  intros s Hl.
  change (invalidateAll false s)
    with (foldl (λ s' e, invalidate (args e) s') s (map snd (cache s))).
  destruct (invalidate_fold_unsubscribed (map snd (cache s)) s Hl)
    as (_ & Hts & Hf & Hem & Hc).
  split_and!; try done.
  - destruct (cache (foldl _ s (map snd (cache s)))) as [|[k e] c] eqn:Hcache; [done|].
    destruct (Hc (k, e)) as [Hin Hall]; [left|].
    destruct (run_entries evs k e Hin) as [_ Hk].
    destruct (Hall e); [|done]. apply list_elem_of_fmap. by exists (k, e).
  - rewrite Hem. f_equal. f_equal.
    assert (∀ c : list (string * CacheStatus),
              (∀ k e, (k, e) ∈ c → getKey (args e) = k) →
              (notification ∘ getKey ∘ args) <$> map snd c = notification <$> c.*1) as Hmap.
    { induction c as [|[k e] c IH]; intros Hc'; [done|]. csimpl.
      rewrite (Hc' k e) by left. f_equal. apply IH. intros k' e' Hin. apply Hc'. by right. }
    apply Hmap. intros k e Hin. by destruct (run_entries evs k e Hin).
Qed.

(** ** Listeners *)

Lemma filter_none {A} (P : A → Prop) `{∀ x, Decision (P x)} (l : list A) :
  (∀ x, x ∈ l → P x) → filter P l = l.
Proof.
  induction l as [|x l IH]; intros Hl; [done|].
  rewrite filter_cons_True by (apply Hl; left).
  f_equal. apply IH. intros y Hy. apply Hl. by right.
Qed.

(** X12: [off] undoes [on]: when the callback is not yet a listener of
    the event, subscribing and then unsubscribing gives back the very
    same state, also when the two calls name the fingerprint by
    different requests (another priority, another order of fields). *)
Theorem off_undoes_on (target target' : Target) (callback : nat) (s : State) :
  event_name target' = event_name target →
  (event_name target, callback) ∉ listeners s →
  off target' callback (on target callback s) = s.
Proof.
  intros Hname Hnot. unfold off, on, with_listeners. simpl.
  rewrite Hname, filter_app, filter_cons_False, filter_nil, app_nil_r
    by (simpl; intros Hn; by apply Hn).
  rewrite filter_none; [by destruct s|].
  intros [name cb] Hin [Hn Hc]. simpl in *. subst. done.
Qed.

(** ** preload *)

(** X13: [preload] of a fingerprint without entry hands one attempt to
    the queue and waits for its promise; once the queue has started the
    attempt and the fetch has settled, the [preload] that follows (the
    same or any request of the fingerprint) returns the data, or throws
    the wrapped error, without any further fetch. *)
Theorem preload_then_settle (rq rq' : Request) (o : Outcome) (s : State) :
  cache_get (getKey rq) (cache s) = None →
  getKey rq' = getKey rq →
  let t := length (tasks s) in
  let s1 := (preload rq s).1 in
  let s2 := settle_task t o (start_task t s1) in
  (preload rq s).2 = AwaitThenRetry (VPromise t) ∧
  preload rq' s2 =
    (s2, match o with
         | Fulfilled data => Return (VData data)
         | Failed err => Throw (VError (UseAsyncError err))
         end) ∧
  fetched s2 = (fetched s ++ [rq])%list.
Proof.
  intros Hnone Hk t s1 s2.
  assert (preload rq s =
    (fresh (getKey rq) rq (pending_entry rq t) s, AwaitThenRetry (VPromise t))) as Hpre.
  { unfold preload. rewrite startLoading_cases. simpl.
    assert (preempt (getKey rq) rq false s = s) as ->.
    { unfold preempt. by rewrite Hnone. }
    by rewrite Hnone. }
  assert (s1 = fresh (getKey rq) rq (pending_entry rq t) s) as Hs1.
  { subst s1. by rewrite Hpre. }
  assert (tasks (start_task t s1) !! t =
            Some {| meta := rq; task_key := getKey rq; aborted := false;
                    started := true; result := None |} ∧
          fetched (start_task t s1) = (fetched s ++ [rq])%list ∧
          cache (start_task t s1) = cache s1) as (Ht & Hf & Hc).
  { unfold start_task. rewrite Hs1. simpl.
    rewrite list_lookup_middle by done. simpl.
    rewrite list_lookup_insert_eq by (rewrite length_app; simpl; lia). done. }
  assert (cache_get (getKey rq) (cache s2) =
    Some {| status := settled_status o; value := settled_value o; next := None;
            args := rq |} ∧ fetched s2 = (fetched s ++ [rq])%list) as [He2 Hf2].
  { subst s2. unfold settle_task. rewrite Ht. simpl. rewrite Hc, Hs1. simpl.
    rewrite cache_get_set_eq. simpl. rewrite cache_get_set_eq.
    split; [done|]. by rewrite <- Hs1. }
  split_and!; [by rewrite Hpre| |done].
  rewrite <- Hk in He2. unfold preload.
  rewrite (startLoading_settled rq' s2 _ He2) by (by destruct o).
  by destruct o.
Qed.

(** ** invalidate during a refresh *)



(** ** Priorities *)

Lemma exponent_pos n : (0 < 2 ^ exponent n)%Z.
Proof. apply Z.pow_pos_nonneg; [lia|]. destruct n; simpl; lia. Qed.

Lemma num_ltb_irrefl a : num_ltb a a = false.
Proof. destruct a; try done; apply Z.ltb_irrefl. Qed.

Lemma num_ltb_asym a b : num_ltb a b = true → num_ltb b a = false.
Proof.
  destruct a, b; try done; unfold num_ltb;
    intros H%Z.ltb_lt; apply Z.ltb_ge; lia.
Qed.

Lemma num_ltb_trans a b c :
  num_ltb a b = true → num_ltb b c = true → num_ltb a c = true.
Proof.
  pose proof (exponent_pos a) as Ha. pose proof (exponent_pos b) as Hb.
  pose proof (exponent_pos c) as Hc.
  destruct a, b, c; try done; unfold num_ltb;
    intros H1%Z.ltb_lt H2%Z.ltb_lt; apply Z.ltb_lt; nia.
Qed.

(** X16: the test of line 80 is a strict order on requests: no request
    has a higher priority than itself, two requests never have each a
    higher priority than the other, and the test is transitive; a
    request without [priority], or with [undefined], [NaN] or [0] as
    [priority], has priority 0. *)
Theorem priority_order_is_strict (a b c : Request) :
  num_ltb (priorityOr0 a) (priorityOr0 a) = false ∧
  (num_ltb (priorityOr0 a) (priorityOr0 b) = true →
   num_ltb (priorityOr0 b) (priorityOr0 a) = false) ∧
  (num_ltb (priorityOr0 a) (priorityOr0 b) = true →
   num_ltb (priorityOr0 b) (priorityOr0 c) = true →
   num_ltb (priorityOr0 a) (priorityOr0 c) = true) ∧
  (field "priority" a = None ∨ field "priority" a = Some JUndefined ∨
   field "priority" a = Some (JNum NaN) ∨ field "priority" a = Some (JNum (Fin 0)) →
   priorityOr0 a = Fin 0).
Proof.
  split_and!.
  - apply num_ltb_irrefl.
  - apply num_ltb_asym.
  - apply num_ltb_trans.
  - unfold priorityOr0. intros [->|[->|[->| ->]]]; done.
Qed.

End Engine.


(** ** The engine at work *)

(** The collation of the examples: code unit order. *)
Lemma compare_antisym a b : String.compare b a = CompOpp (String.compare a b).
Proof. apply String.compare_antisym. Qed.

Lemma compare_trans a b c :
  String.compare a b ≠ Gt → String.compare b c ≠ Gt → String.compare a c ≠ Gt.
Proof.
  assert (∀ x y, String.compare x y ≠ Gt ↔ String.le x y) as Hle.
  { intros x y. unfold String.le, String.leb. by destruct (String.compare x y). }
  rewrite !Hle. apply transitivity.
Qed.

Definition r1 : Request := [("id", JNum (Fin 1))].
Definition r5 : Request := [("priority", JNum (Fin 5)); ("id", JNum (Fin 1))].
Definition r2 : Request := [("id", JNum (Fin 2))].

(** An engine whose data are integers and whose failures are texts. *)
Definition engine : Type := @State Z string.
Definition events : Type := list (@Event Z string).

Definition key1 : string := Eval vm_compute in getKey number_text String.compare r1.

(** [r1] was read and its attempt runs. *)
Definition running : engine :=
  run number_text String.compare ([ERead r1; EStart 0] : events) init.

(** [r1] was read and resolved with 7, and has a subscriber. *)
Definition resolved : engine :=
  run number_text String.compare
    ([ERead r1; EStart 0; ESettle 0 (Fulfilled 7%Z); EOn (Of r1) 0] : events) init.

(** The scenario of the specification: [fetchData({id}) = id * 2]. *)
Example end_to_end :
  let '(s1, c1) := read number_text String.compare r1 (init : engine) in
  let s2 := settle_task 0 (Fulfilled 2%Z) (start_task 0 s1) in
  let '(s3, c3) := read number_text String.compare r1 s2 in
  let s4 := invalidate number_text String.compare r1 (on number_text String.compare (Of r1) 0 s3) in
  let '(s5, c5) := read number_text String.compare r1 s4 in
  let s6 := settle_task 1 (Fulfilled 2%Z) (start_task 1 s5) in
  let '(s7, c7) := read number_text String.compare r1 s6 in
  c1 = Throw (VPromise 0) ∧ c3 = Return (VData 2%Z) ∧
  c5 = Return (VData 2%Z) ∧ c7 = Return (VData 2%Z) ∧
  fetched s7 = [r1; r1] ∧ emitted s7 = [key1; "any"; key1; "any"].
Proof. vm_compute. by split_and!. Qed.

(** The witness of C10. *)
Lemma invalidate_without_entry_witness :
  cache_get (getKey number_text String.compare r1) (cache (init : engine)) = None ∧
  cache (invalidate number_text String.compare r1 (init : engine)) = [] ∧
  emitted (invalidate number_text String.compare r1 (init : engine)) = [key1; "any"].
Proof.
  split; [reflexivity|].
  destruct (invalidate_without_entry number_text String.compare r1 (init : engine) eq_refl)
    as (Hc & He & _).
  split; [exact Hc|exact He].
Defined.

(** The witness of C4: without subscribers the resolved entry is
    deleted and nothing is handed to the queue. *)
Lemma invalidate_refresh_or_delete_witness :
  let s : engine :=
    run number_text String.compare ([ERead r1; EStart 0; ESettle 0 (Fulfilled 7%Z)] : events) init in
  listenerCount key1 s = 0 ∧
  tasks (invalidate number_text String.compare r1 s) = tasks s ∧
  cache_get key1 (cache (invalidate number_text String.compare r1 s)) = None ∧
  fetched (invalidate number_text String.compare r1 s) = fetched s.
Proof.
  intros s. split; [reflexivity|].
  exact (proj2 (invalidate_refresh_or_delete number_text String.compare r1 s) eq_refl).
Defined.

(** The witness of C9. *)
Lemma rejected_fetch_is_wrapped_and_rethrown_witness :
  let s' := settle_task 0 (Failed "boom") running in
  cache_get key1 (cache s') =
    Some {| status := Rejected; value := VError (UseAsyncError "boom");
            next := None; args := r1 |} ∧
  read number_text String.compare r5 s' = (s', Throw (VError (UseAsyncError "boom"))) ∧
  preload number_text String.compare r5 s' = (s', Throw (VError (UseAsyncError "boom"))).
Proof.
  intros s'.
  destruct (rejected_fetch_is_wrapped_and_rethrown number_text String.compare 0
              {| meta := r1; task_key := key1; aborted := false; started := true;
                 result := None |}
              "boom" (pending_entry r1 0) running
              eq_refl eq_refl eq_refl eq_refl) as (He & Hrd & _).
  split; [exact He|]. exact (Hrd r5 eq_refl).
Defined.

(** The counterexample of C8: the entry of attempt 0 is deleted by
    [invalidate]; a new entry is made by the next [read]; the settlement
    of attempt 0 then resolves the new entry and emits. *)
Lemma settlement_after_deletion_is_not_silent :
  ¬ @settlement_after_deletion_is_silent number_text String.compare Z string.
Proof.
  intros H.
  destruct (H [ERead r1; EStart 0; EInvalidate r1] [ERead r1] 0
              {| meta := r1; task_key := key1; aborted := false; started := true;
                 result := None |}
              (Fulfilled 7%Z) eq_refl eq_refl) as [Hc _].
  vm_compute in Hc. discriminate Hc.
Qed.

(** The witness of C8 as the code has it. *)
Lemma settle_without_entry_witness :
  let s : engine :=
    run number_text String.compare ([ERead r1; EStart 0; EInvalidate r1] : events) init in
  cache_get key1 (cache s) = None ∧
  cache (settle_task 0 (Fulfilled 7%Z) s) = cache s ∧
  emitted (settle_task 0 (Fulfilled 7%Z) s) = emitted s.
Proof.
  intros s. split; [reflexivity|].
  destruct (settle_without_entry 0
              {| meta := r1; task_key := key1; aborted := false; started := true;
                 result := None |}
              (Fulfilled 7%Z) s eq_refl eq_refl) as (Hc & He & _).
  split; [exact Hc|exact He].
Defined.


(** The counterexample of C3: [invalidate] deletes the Pending entry
    of [r1] and leaves attempt 0 running; a second attempt resolves the
    new entry with 7; with a subscriber, [invalidate] then submits the
    refresh, attempt 2.  Attempt 0 settles with 5 in the refresh window:
    [read] returns 5, not 7, while the refresh is in flight. *)
Lemma stale_value_is_not_served :
  ¬ @stale_value_is_served number_text String.compare Z string.
Proof.
  intros H.
  specialize (H [ERead r1; EStart 0; EInvalidate r1; ERead r1; EStart 1;
                 ESettle 1 (Fulfilled 7%Z); EOn (Of r1) 0]
                [ESettle 0 (Fulfilled 5%Z)] r1
                {| status := Resolved; value := VData 7%Z; next := None; args := r1 |}
                eq_refl eq_refl eq_refl (le_n 1)).
  assert (0 ≠ 2) as Hne by discriminate.
  specialize (H (conj Hne I)).
  vm_compute in H. discriminate H.
Qed.

(** The witness of C3 as the code has it: in the refresh window [r1] is
    read, another fingerprint is read and its attempt settles. *)
Lemma stale_while_revalidate_witness :
  let s2 : engine :=
    run number_text String.compare
      ([ERead r1; ERead r2; EStart 1; EStart 2; ESettle 2 (Fulfilled 3%Z);
        EPreload r5] : events)
      (invalidate number_text String.compare r5 resolved) in
  read number_text String.compare r1 s2 = (s2, Return (VData 7%Z)) ∧
  (read number_text String.compare r1 (settle_task 1 (Fulfilled 9%Z) s2)).2 =
    Return (VData 9%Z).
Proof.
  intros s2.
  assert (dedup_window number_text String.compare
            (getKey number_text String.compare r5)
            ([ERead r1; ERead r2; EStart 1; EStart 2; ESettle 2 (Fulfilled 3%Z);
              EPreload r5] : events)
            (invalidate number_text String.compare r5 resolved)) as Hw.
  { repeat split. intros tk Htk. vm_compute in Htk. injection Htk as <-.
    discriminate. }
  destruct (stale_while_revalidate number_text String.compare
              [ERead r1; EStart 0; ESettle 0 (Fulfilled 7%Z); EOn (Of r1) 0]
              [ERead r1; ERead r2; EStart 1; EStart 2; ESettle 2 (Fulfilled 3%Z);
               EPreload r5]
              r5
              {| status := Resolved; value := VData 7%Z; next := None; args := r1 |}
              eq_refl eq_refl eq_refl (le_n 1) Hw) as (_ & _ & Hrd & Hset).
  split; [exact (Hrd r1 eq_refl)|].
  exact (Hset {| meta := r5; task_key := key1; aborted := false; started := true;
                 result := None |}
              (Fulfilled 9%Z) r1 eq_refl eq_refl eq_refl eq_refl).
Defined.

(** The counterexample of C7: the resolved entry of [r1] is refreshed
    by [invalidate] of [r5]; its value is still the one the attempt of
    [r1] produced and its [args] is [r5]. *)
Lemma args_does_not_name_producer :
  ¬ ∀ evs : events, args_names_producer (run number_text String.compare evs init).
Proof.
  intros H.
  destruct (H [ERead r1; EStart 0; ESettle 0 (Fulfilled 7%Z); EOn (Of r1) 0;
               EInvalidate r5]
              key1
              {| status := Resolved; value := VData 7%Z; next := Some 1; args := r5 |}
              eq_refl) as (t & tk & o & Ht & Hres & _ & Hm); [done|].
  vm_compute in Ht. destruct t as [|[|t]]; simplify_eq; discriminate.
Qed.

(** The witness of C7 as the code has it. *)
Lemma args_is_request_of_latest_attempt_witness :
  let s : engine := invalidate number_text String.compare r5 resolved in
  cache_get key1 (cache s) =
    Some {| status := Resolved; value := VData 7%Z; next := Some 1; args := r5 |} ∧
  ∃ t tk, tasks s !! t = Some tk ∧ latest key1 t (tasks s) ∧ r5 = meta tk.
Proof.
  intros s. split; [reflexivity|].
  destruct (args_is_request_of_latest_attempt number_text String.compare
              ([ERead r1; EStart 0; ESettle 0 (Fulfilled 7%Z); EOn (Of r1) 0;
                EInvalidate r5] : events)
              key1
              {| status := Resolved; value := VData 7%Z; next := Some 1; args := r5 |}
              eq_refl) as (t & tk & Ht & _ & Hlat & Hm & _).
  exists t, tk. split; [exact Ht|]. split; [exact Hlat|exact Hm].
Defined.

(** The counterexample of C6: [invalidate] deletes the Pending entry
    of [r1] and leaves its attempt running; the next [read] makes a
    second attempt. *)
Lemma pending_value_is_not_sole_attempt :
  ¬ ∀ evs : events, pending_value_is_sole_attempt (run number_text String.compare evs init).
Proof.
  intros H.
  destruct (H [ERead r1; EStart 0; EInvalidate r1; ERead r1; EStart 1]
              key1 (pending_entry r1 1) eq_refl eq_refl)
    as (t & tk & Hv & _ & _ & _ & Hsole).
  injection Hv as <-.
  specialize (Hsole 0
    {| meta := r1; task_key := key1; aborted := false; started := true;
       result := None |} eq_refl eq_refl (conj eq_refl eq_refl)).
  discriminate Hsole.
Qed.

(** The witness of C6 as the code has it. *)
Lemma pending_value_is_latest_attempt_witness :
  let evs : events := [ERead r1; EInvalidate r2; EStart 0; ERead r5] in
  let s := run number_text String.compare evs init in
  cache_get key1 (cache s) = Some (pending_entry r1 0) ∧
  ∃ t tk, (VPromise 0 : @Value Z string) = VPromise t ∧ tasks s !! t = Some tk ∧
    live tk ∧
    ∀ t' tk', tasks s !! t' = Some tk' → task_key tk' = key1 → live tk' → t' = t.
Proof.
  intros evs s. split; [reflexivity|].
  destruct (pending_value_is_latest_attempt number_text String.compare evs key1
              (pending_entry r1 0) eq_refl eq_refl)
    as (t & tk & Hv & Ht & _ & Hl & _ & Hsole).
  exists t, tk. split; [exact Hv|]. split; [exact Ht|]. split; [exact Hl|].
  apply Hsole. simpl. split_and!; try exact I. intros Hk. discriminate Hk.
Defined.

(** The witness of C1: two reads, the second of higher priority, and a
    preload; the queue runs both attempts. *)
Lemma concurrent_reads_fetch_once_witness :
  let evs : events :=
    [ERead r1; ERead r5; EInvalidate r2; EStart 0; EStart 1; EPreload r1] in
  let s := run number_text String.compare evs init in
  fetch_calls number_text String.compare key1 s = 1 ∧ fetched s = [r5].
Proof.
  intros evs s. split; [|reflexivity].
  assert (dedup_window number_text String.compare key1 evs init) as Hw.
  { simpl. split_and!; try exact I. intros Hk. discriminate Hk. }
  assert (Exists (reads number_text String.compare key1) evs) as Hex.
  { apply Exists_cons_hd. reflexivity. }
  destruct (concurrent_reads_fetch_once number_text String.compare key1 evs Hw Hex)
    as (_ & Hone & _).
  apply Hone. intros t tk Ht _.
  destruct t as [|[|t]]; vm_compute in Ht; simplify_eq; simpl; auto.
Defined.

(** The host functions of the examples are as the host's are assumed
    to be. *)

Lemma uint_num_chars d : str_forall is_num_char (NilEmpty.string_of_uint d) = true.
Proof. induction d; simpl; auto. Qed.

Lemma string_of_Z_num_chars z : str_forall is_num_char (string_of_Z z) = true.
Proof.
  unfold string_of_Z.
  assert (∀ d, str_forall is_num_char (NilZero.string_of_uint d) = true) as Hu.
  { intros d. destruct d; try apply (uint_num_chars (_ _)). done. }
  destruct (Z.to_int z); simpl; [apply Hu|]. apply Hu.
Qed.

Lemma string_of_Z_head z :
  ∃ a rest, string_of_Z z = String a rest ∧ is_num_char a = true.
Proof.
  pose proof (string_of_Z_num_chars z) as H.
  assert (string_of_Z z ≠ "") as Hne.
  { unfold string_of_Z. destruct (Z.to_int z) as [d|d]; simpl; [|done].
    destruct d; simpl; done. }
  destruct (string_of_Z z) as [|a rest]; [done|].
  simpl in H. apply andb_true_iff in H as [Ha _]. eauto.
Qed.

Lemma string_of_Z_inj z z' : string_of_Z z = string_of_Z z' → z = z'.
Proof.
  unfold string_of_Z. intros H. apply DecimalZ.to_int_inj.
  assert (∀ z, Z.to_int z ≠ Decimal.Pos Decimal.Nil ∧
               Z.to_int z ≠ Decimal.Neg Decimal.Nil) as Hnn.
  { intros [|p|p]; simpl; split; try done;
      intros [= Hp]; by apply DecimalPos.Unsigned.to_uint_nonnil in Hp. }
  apply (f_equal NilZero.int_of_string) in H.
  destruct (Hnn z), (Hnn z').
  rewrite !NilZero.isi in H by done. by simplify_eq.
Qed.

Lemma num_chars_number_chars s :
  str_forall is_num_char s = true → str_forall is_number_char s = true.
Proof.
  induction s as [|a s IH]; simpl; [done|].
  intros [Ha Hs]%andb_true_iff. rewrite (IH Hs), andb_true_r.
  destruct a as [[] [] [] [] [] [] [] []]; done.
Qed.

Lemma num_chars_no_mark s :
  str_forall is_num_char s = true →
  str_forall (λ c, negb (Ascii.eqb c "e")) s = true.
Proof.
  induction s as [|a s IH]; simpl; [done|].
  intros [Ha Hs]%andb_true_iff. rewrite (IH Hs), andb_true_r.
  destruct a as [[] [] [] [] [] [] [] []]; done.
Qed.

Lemma str_forall_app f s r :
  str_forall f (s ++ r) = str_forall f s && str_forall f r.
Proof.
  induction s as [|a s IH]; [done|].
  change (String a s ++ r) with (String a (s ++ r)). simpl.
  by rewrite IH, andb_assoc.
Qed.

Lemma mark_delimits (c : ascii) a a' r r' :
  str_forall (λ x, negb (Ascii.eqb x c)) a = true →
  str_forall (λ x, negb (Ascii.eqb x c)) a' = true →
  a ++ String c r = a' ++ String c r' → a = a' ∧ r = r'.
Proof.
  revert a'. induction a as [|x a IH]; intros [|x' a'] Ha Ha' H; simpl in Ha, Ha'.
  - change (String c r = String c r') in H. by simplify_eq.
  - change (String c r = String x' (a' ++ String c r')) in H.
    injection H as <- _. by rewrite Ascii.eqb_refl in Ha'.
  - change (String x (a ++ String c r) = String c r') in H.
    injection H as -> _. by rewrite Ascii.eqb_refl in Ha.
  - change (String x (a ++ String c r) = String x' (a' ++ String c r')) in H.
    apply andb_true_iff in Ha as [_ Ha]. apply andb_true_iff in Ha' as [_ Ha'].
    injection H as -> H. by destruct (IH a' Ha Ha' H) as [-> ->].
Qed.

Lemma no_mark (c : ascii) s a r :
  str_forall (λ x, negb (Ascii.eqb x c)) s = true → s ≠ a ++ String c r.
Proof.
  revert a. induction s as [|x s IH]; intros [|x' a] Hs H; simpl in Hs.
  - discriminate H.
  - discriminate H.
  - change (String x s = String c r) in H. injection H as -> _.
    by rewrite Ascii.eqb_refl in Hs.
  - change (String x s = String x' (a ++ String c r)) in H.
    apply andb_true_iff in Hs as [_ Hs]. injection H as _ H. by apply (IH a).
Qed.

Lemma number_text_text n :
  is_finite n = true →
  number_text n ≠ "" ∧ str_forall is_number_char (number_text n) = true.
Proof.
  intros Hn. destruct n as [z| |k e| | |]; try done.
  - destruct (string_of_Z_head z) as (a & rest & Hz & _). split.
    + simpl. by rewrite Hz.
    + apply num_chars_number_chars, string_of_Z_num_chars.
  - unfold number_text. split.
    + destruct (string_of_Z_head ((2 * k + 1) * 5 ^ Z.pos e)) as (a & rest & -> & _).
      done.
    + rewrite !str_forall_app.
      by rewrite !(num_chars_number_chars _ (string_of_Z_num_chars _)).
Qed.

Lemma number_text_same n n' :
  is_finite n = true → is_finite n' = true →
  (number_text n = number_text n' ↔ toJson (JNum n) = toJson (JNum n')).
Proof.
  intros Hn Hn'.
  assert (∀ z a r, string_of_Z z ≠ a ++ String "e" r) as Hno.
  { intros z a r. apply no_mark, num_chars_no_mark, string_of_Z_num_chars. }
  assert (∀ k e, number_text (Frac k e) =
            string_of_Z ((2 * k + 1) * 5 ^ Z.pos e) ++
              String "e" (String "-" (string_of_Z (Z.pos e)))) as Hfrac by done.
  assert (∀ z, string_of_Z z = "0" ↔ z = 0%Z) as Hzero.
  { intros z. split; [|by intros ->]. intros H. by apply string_of_Z_inj. }
  destruct n as [z| |k e| | |], n' as [z'| |k' e'| | |]; try done.
  - simpl. split; [by intros ->%string_of_Z_inj|by intros [= ->]].
  - simpl. rewrite Hzero. split; [by intros ->|by intros [= ->]].
  - rewrite Hfrac. simpl. split; [|done]. intros H. by apply Hno in H.
  - simpl. split; [|by intros [= <-]]. intros H. symmetry in H.
    by apply Hzero in H as ->.
  - rewrite Hfrac. split; [|done]. intros H. by apply (Hno 0%Z) in H.
  - rewrite Hfrac. simpl. split; [|done]. intros H. symmetry in H. by apply Hno in H.
  - rewrite Hfrac. split; [|done]. intros H. symmetry in H. by apply (Hno 0%Z) in H.
  - rewrite !Hfrac. simpl. split; [|by intros [= -> ->]].
    intros H. apply mark_delimits in H as [HN He];
      [|apply num_chars_no_mark, string_of_Z_num_chars..].
    injection He as He. apply string_of_Z_inj in He. injection He as ->.
    apply string_of_Z_inj in HN.
    assert (k = k') as ->; [|done].
    apply Z.mul_reg_r in HN; [lia|]. apply Z.pow_nonzero; lia.
Qed.

Lemma collate_antisym a b : collate b a = CompOpp (collate a b).
Proof. apply compare_antisym. Qed.

Lemma collate_trans a b c :
  collate a b ≠ Gt → collate b c ≠ Gt → collate a c ≠ Gt.
Proof. apply compare_trans. Qed.

(** The counterexample of C5.  Two names that collate equal stay in the
    order in which they were inserted, so the fingerprint depends on
    it; two requests that differ in a field have the same fingerprint
    when the values are [undefined] and [NaN], both [null] in it, or [0]
    and [-0], both [0] in it. *)
Lemma fingerprint_depends_on_order_and_merges :
  ¬ fingerprint_ignores_order number_text collate ∧
  ¬ fingerprints_separate number_text collate ∧
  getKey number_text collate [("id", JUndefined)] =
    getKey number_text collate [("id", JNum NaN)] ∧
  getKey number_text collate [("id", JNum (Fin 0))] =
    getKey number_text collate [("id", JNum NegZero)].
Proof.
  split_and!; [intros H|intros H|reflexivity..].
  - specialize (H [("a", JNum (Fin 1)); (String "a" (String "000" ""), JNum (Fin 2))]
                  [(String "a" (String "000" ""), JNum (Fin 2)); ("a", JNum (Fin 1))]).
    assert (NoDup ([("a", JNum (Fin 1));
                    (String "a" (String "000" ""), JNum (Fin 2))].*1 : list string))
      as Hnd.
    { apply (bool_decide_unpack _). vm_compute. exact I. }
    specialize (H Hnd (Permutation_swap _ _ _)).
    vm_compute in H. discriminate H.
  - apply (H [("id", JNum (Fin 0))] [("id", JNum NegZero)]).
    + apply NoDup_singleton.
    + apply NoDup_singleton.
    + intros Hp. apply Permutation_singleton_l in Hp. discriminate Hp.
    + reflexivity.
Qed.

(** The witness of C5 as the code has it, at the collation with a
    tie: the names of [ra] are told apart; [rb] has no [priority], its
    fields in another order and [0] where [ra] has [-0]. *)
Lemma getKey_fingerprint_witness :
  let ra : Request :=
    [("b", JStr "x"); ("priority", JNum (Fin 1)); ("a", JNum NegZero)] in
  let rb : Request := [("a", JNum (Fin 0)); ("b", JStr "x")] in
  NoDup ra.*1 ∧ told_apart collate ra ∧
  getKey number_text collate ra = getKey number_text collate rb.
Proof.
  intros ra rb.
  assert (NoDup ra.*1) as Hnd.
  { apply (bool_decide_unpack _). vm_compute. exact I. }
  assert (told_apart collate ra) as Htie.
  { intros a b Ha Hb.
    assert (∀ x, x ∈ (omit "priority" ra).*1 → x = "b" ∨ x = "a") as Hin.
    { intros x Hx. vm_compute in Hx.
      apply elem_of_cons in Hx as [->|Hx]; [by left|].
      apply elem_of_cons in Hx as [->|Hx]; [by right|].
      by apply not_elem_of_nil in Hx. }
    destruct (Hin a Ha) as [-> | ->], (Hin b Hb) as [-> | ->]; done. }
  split; [exact Hnd|]. split; [exact Htie|].
  destruct (getKey_fingerprint number_text collate number_text_same number_text_text
              collate_antisym collate_trans ra rb) as (_ & _ & Hrest).
  destruct (Hrest Hnd Htie) as (_ & _ & Hiff).
  apply Hiff. apply Permutation_swap.
Defined.

(** ** More of the engine at work *)

(** [r1] was read and its attempt waits in the queue. *)
Definition waiting : engine := run number_text String.compare ([ERead r1] : events) init.

Definition key2 : string := Eval vm_compute in getKey number_text String.compare r2.

(** [r1] resolved with 7 and [r2] failed; nobody listens. *)
Definition mixed : events :=
  [ERead r1; EStart 0; ESettle 0 (Fulfilled 7%Z);
   ERead r2; EStart 1; ESettle 1 (Failed "boom")].

(** The witness of X3: the read of higher priority replaces the Pending
    entry and emits nothing. *)
Lemma silent_events_emit_nothing_witness :
  cache_get key1 (cache (step number_text String.compare waiting (ERead r5))) =
    Some (pending_entry r5 1) ∧
  emitted (step number_text String.compare waiting (ERead r5)) = [].
Proof.
  split; [reflexivity|].
  exact (proj1 (silent_events_emit_nothing number_text String.compare waiting (ERead r5) I)).
Defined.

(** The witness of X6. *)
Lemma attempt_flags_witness :
  let tk : @Task Z string :=
    {| meta := r1; task_key := key1; aborted := true; started := false;
       result := None |} in
  task_key tk = getKey number_text String.compare (meta tk) ∧
  ¬ (aborted tk = true ∧ started tk = true).
Proof.
  intros tk.
  destruct (attempt_flags number_text String.compare
              ([ERead r1; ERead r5; EStart 0; EStart 1] : events) 0 tk eq_refl)
    as (Hk & Hn & _).
  split; [exact Hk|exact Hn].
Defined.

(** The witness of X7. *)
Lemma attempts_persist_witness :
  ∃ tk', tasks (run number_text String.compare ([ERead r5; EStart 0] : events) waiting) !! 0 =
           Some tk' ∧ meta tk' = r1.
Proof.
  destruct (attempts_persist number_text String.compare ([ERead r5; EStart 0] : events) waiting 0
              {| meta := r1; task_key := key1; aborted := false; started := false;
                 result := None |} eq_refl) as (tk' & Ht & Hm & _).
  exists tk'. split; [exact Ht|exact Hm].
Defined.

(** The witness of X9: a request of the same priority joins the running
    attempt. *)
Lemma request_without_effect_witness :
  startLoading number_text String.compare r1 false running = (running, Some (pending_entry r1 0)).
Proof.
  exact (proj1 (request_without_effect number_text String.compare r1 (pending_entry r1 0) running
                  eq_refl (or_intror eq_refl))).
Defined.

(** The witness of X10: the Resolved entry of [r1] stays, the Rejected
    entry of [r2] goes. *)
Lemma invalidateAll_only_rejected_witness :
  let s := invalidateAll number_text String.compare true (run number_text String.compare mixed init) in
  cache_get key1 (cache s) =
    Some {| status := Resolved; value := VData 7%Z; next := None; args := r1 |} ∧
  cache_get key2 (cache s) = None.
Proof.
  intros s. split; [|reflexivity].
  apply (proj1 (invalidateAll_only_rejected number_text String.compare mixed key1 _ eq_refl
                  ltac:(discriminate))).
Defined.

(** The witness of X11. *)
Lemma invalidateAll_unsubscribed_witness :
  let s := invalidateAll number_text String.compare false (run number_text String.compare mixed init) in
  cache s = [] ∧ length (tasks s) = 2 ∧
  emitted s = [key1; "any"; key2; "any"; key1; "any"; key2; "any"].
Proof.
  intros s.
  destruct (invalidateAll_unsubscribed number_text String.compare mixed eq_refl)
    as (Hc & Hts & _ & Hem).
  split; [exact Hc|]. split; [|exact Hem].
  exact (f_equal length Hts).
Defined.

(** The witness of X12: subscribed with [r1], unsubscribed with [r5]. *)
Lemma off_undoes_on_witness :
  off number_text String.compare (Of r5) 3 (on number_text String.compare (Of r1) 3 waiting) = waiting.
Proof.
  apply (off_undoes_on number_text String.compare (Of r1) (Of r5) 3 waiting); [reflexivity|].
  intros H. apply not_elem_of_nil in H. exact H.
Defined.

(** The witness of X13. *)
Lemma preload_then_settle_witness :
  let s2 : engine :=
    settle_task 0 (Fulfilled 2%Z)
      (start_task 0 (preload number_text String.compare r1 (init : engine)).1) in
  preload number_text String.compare r5 s2 = (s2, Return (VData 2%Z)) ∧ fetched s2 = [r1].
Proof.
  intros s2.
  destruct (preload_then_settle number_text String.compare r1 r5 (Fulfilled 2%Z) (init : engine)
              eq_refl eq_refl) as (_ & Hpre & Hf).
  split; [exact Hpre|exact Hf].
Defined.


(** The witness of X16. *)
Lemma priority_order_is_strict_witness :
  num_ltb (priorityOr0 r1) (priorityOr0 r5) = true ∧
  num_ltb (priorityOr0 r5) (priorityOr0 r1) = false ∧
  priorityOr0 r1 = Fin 0.
Proof.
  split; [reflexivity|].
  destruct (priority_order_is_strict r1 r5 r5) as (_ & Hasym & _ & Hzero).
  split; [exact (Hasym eq_refl)|exact (Hzero (or_introl eq_refl))].
Defined.
